(** * A shallow embedding of music-transcode.py

    The Python program mirrors a source music tree into a destination tree.
    Python strings are modelled as lists of Unicode code points ([pystr]);
    functions that can raise return [except A]; the reconciliation phase
    of [sync_paths] runs in a small trace-and-exception monad [M]. *)

From Stdlib Require Import String Ascii QArith Qround ZArith Lia Lqa.
From stdpp Require Import base list gmap sets.

Open Scope N_scope.

(* ------------------------------------------------------------------ *)
(** ** Python strings *)

Abbreviation pystr := (list N).

(** ASCII literal as a Python [str] (one code point per character). *)
Definition lit (s : string) : pystr :=
  map N_of_ascii (list_ascii_of_string s).

Definition c_slash : N := 47.   (* '/' *)
Definition c_dot : N := 46.     (* '.' *)
Definition c_under : N := 95.   (* '_' *)

(** [s.startswith(p)] *)
Fixpoint starts_with (p s : pystr) : bool :=
  match p, s with
  | [], _ => true
  | a :: p', b :: s' => N.eqb a b && starts_with p' s'
  | _ :: _, [] => false
  end.

(** [s.endswith(p)] *)
Definition ends_with (p s : pystr) : bool := starts_with (rev p) (rev s).

(** [p in s] for strings *)
Fixpoint contains (p s : pystr) : bool :=
  starts_with p s ||
  match s with
  | [] => false
  | _ :: s' => contains p s'
  end.

(** [s.replace(old, new)] for a non-empty [old]: left to right, non
    overlapping.  The fuel [length s] suffices since every step consumes
    at least one character. *)
Fixpoint replace_fuel (fuel : nat) (old new s : pystr) : pystr :=
  match fuel with
  | O => s
  | S f =>
      match s with
      | [] => []
      | c :: s' =>
          if starts_with old s
          then new ++ replace_fuel f old new (drop (length old) s)
          else c :: replace_fuel f old new s'
      end
  end.

Definition replace (old new s : pystr) : pystr :=
  replace_fuel (length s) old new s.

(** [s.split(sep)] for a one-character separator: never empty. *)
Fixpoint split_on (sep : N) (s : pystr) : list pystr :=
  match s with
  | [] => [[]]
  | c :: s' =>
      let r := split_on sep s' in
      if N.eqb c sep then [] :: r
      else match r with
           | w :: ws => (c :: w) :: ws
           | [] => [[c]]
           end
  end.

(** [sep.join(l)] *)
Fixpoint join (sep : pystr) (l : list pystr) : pystr :=
  match l with
  | [] => []
  | [w] => w
  | w :: ws => w ++ sep ++ join sep ws
  end.

(** [re.sub(cls, repl, s)] for a regular expression that is a single
    character class: every matching code point is replaced. *)
Definition re_sub_class (cls : N -> bool) (repl : N) (s : pystr) : pystr :=
  map (fun c => if cls c then repl else c) s.

(* ------------------------------------------------------------------ *)
(** ** Exceptions *)

Inductive exn :=
| AssertionError
| KeyError
| ValueError
| IndexError
| RecursionError
| PyException.  (* a bare [raise Exception(...)] *)

Definition except (A : Type) : Type := (exn + A)%type.

Definition bind_exc {A B} (m : except A) (k : A -> except B) : except B :=
  match m with
  | inl e => inl e
  | inr a => k a
  end.

Notation "'let!' x ':=' m 'in' k" := (bind_exc m (fun x => k))
  (at level 200, x name, m at level 100, k at level 200).

Definition py_assert (b : bool) : except unit :=
  if b then inr tt else inl AssertionError.

Fixpoint mapM_exc {A B} (f : A -> except B) (l : list A) : except (list B) :=
  match l with
  | [] => inr []
  | x :: l' =>
      let! y := f x in
      let! ys := mapM_exc f l' in
      inr (y :: ys)
  end.

Definition nonempty (s : pystr) : bool :=
  match s with [] => false | _ => true end.

(* ------------------------------------------------------------------ *)
(** ** Module-level constants *)

Definition is_ascii_alnum (c : N) : bool :=
  ((65 <=? c) && (c <=? 90)) || ((97 <=? c) && (c <=? 122))
  || ((48 <=? c) && (c <=? 57)).

Definition in_chars (cs : pystr) (c : N) : bool := existsb (N.eqb c) cs.

(** [re_unsafe_f]: the class of code points outside A-Z a-z 0-9 and
    space . , & ' ( ) _ - *)
Definition re_unsafe_f (c : N) : bool :=
  negb (is_ascii_alnum c || in_chars (lit " .,&'()_-") c).

(** [re_unsafe_d]: as [re_unsafe_f], but '/' is also allowed. *)
Definition re_unsafe_d (c : N) : bool :=
  negb (is_ascii_alnum c || in_chars (lit " .,&'()_/-") c).

(** [re_unsafe_android]: the class of the double quote (code 34) and
    * : < > ? backslash | *)
Definition re_unsafe_android (c : N) : bool :=
  in_chars (lit "*:<>?\|") c || N.eqb c 34.

(* ------------------------------------------------------------------ *)
(** ** safe_filename, fat_safe, safe_chars_only, android_safe_chars_only *)

Definition safe_filename (name : pystr) : bool :=
  if starts_with (lit "/") name || starts_with (lit "./") name
     || starts_with (lit "../") name then false
  else if ends_with (lit "/") name || ends_with (lit "/.") name
          || ends_with (lit "/..") name then false
  else if contains (lit "/./") name || contains (lit "/../") name then false
  else true.

(** The loop [while text.endswith("."): text = text[:-1]], on the
    reversed string. *)
Fixpoint drop_dots (r : pystr) : pystr :=
  match r with
  | c :: r' => if N.eqb c c_dot then drop_dots r' else r
  | [] => []
  end.

Definition fat_safe (text : pystr) : except pystr :=
  let! _ := py_assert (nonempty text) in
  let text := rev (drop_dots (rev text)) in
  let! _ := py_assert (nonempty text) in
  inr text.

Section Normalizers.

(** [unidecode.unidecode], an external library function. *)
Variable unidecode : pystr -> pystr.

Definition safe_chars_only (text : pystr) (file : bool) : except pystr :=
  let! _ := py_assert (nonempty text) in
  let text := replace (lit "P!nk") (lit "Pink") text in
  let! parts := mapM_exc
      (fun x => fat_safe (replace [c_slash] [c_under] (unidecode x)))
      (split_on c_slash text) in
  let text := join [c_slash] parts in
  let text := if file then re_sub_class re_unsafe_f c_under text
              else re_sub_class re_unsafe_d c_under text in
  let! _ := py_assert (nonempty text) in
  inr text.

End Normalizers.

(** U+2236 RATIO and U+2E2E REVERSED QUESTION MARK *)
Definition c_ratio : N := 8758.
Definition c_rev_question : N := 11822.

Definition android_safe_chars_only (text : pystr) : except pystr :=
  let! _ := py_assert (nonempty text) in
  let text := replace (lit "?") [c_rev_question]
                (replace (lit ":") [c_ratio] text) in
  let text := re_sub_class re_unsafe_android c_under text in
  inr text.

(* ------------------------------------------------------------------ *)
(** ** Sets of strings, os.path.basename, filter_file *)

Definition mem (x : pystr) (l : list pystr) : bool := bool_decide (x ∈ l).

(** [os.path.basename]: the part after the last '/'. *)
Definition basename (p : pystr) : pystr := List.last (split_on c_slash p) [].

Definition extensions : list pystr :=
  [lit "flac"; lit "mp3"; lit "ogg"; lit "m4a"].

Definition extra : list pystr :=
  [lit "cover.jpg"; lit "playlist-christmas.jpg"].

(** [name.split(".")[-1]] *)
Definition last_dot_part (name : pystr) : pystr :=
  List.last (split_on c_dot name) [].

Definition filter_file (name : pystr) (no_extra : bool) : bool :=
  let name := basename name in
  if mem (last_dot_part name) extensions then true
  else if negb no_extra && mem name extra then true
  else false.

(** The file filter in the words of the specification: the extension is
    the text after the last '.', and a name without '.' has none. *)
Definition spec_extension (name : pystr) : option pystr :=
  if in_chars name c_dot then Some (last_dot_part name) else None.

Definition spec_filter_file (name : pystr) (no_extra : bool) : bool :=
  match spec_extension (basename name) with
  | Some e => mem e extensions
  | None => false
  end || (negb no_extra && mem (basename name) extra).

(* ------------------------------------------------------------------ *)
(** ** round_mtime *)

(** The times of [os.lstat]; Python floats are modelled exactly by
    rationals, and [%], [math.ceil] and [//] are exact on them. *)
Record stat_times := { st_atime : Q; st_mtime : Q }.

(** [x % 2] on floats: the result has the sign of the divisor. *)
Definition py_fmod2 (x : Q) : Q := (x - 2 * inject_Z (Qfloor (x / 2)))%Q.

(** [round_mtime(filename)]: the times after the call; [os.utime] is
    called with the integer [(math.ceil(st_mtime) + 1) // 2 * 2]. *)
Definition round_mtime (st : stat_times) : stat_times :=
  if negb (Qeq_bool (py_fmod2 (st_mtime st)) 0)
  then {| st_atime := st_atime st;
          st_mtime := inject_Z (((Qceiling (st_mtime st) + 1) / 2) * 2)%Z |}
  else st.

(* ------------------------------------------------------------------ *)
(** ** FLAC Vorbis comments and get_title *)

(** [str.lower] on the ASCII letters of tag names. *)
Definition lower_char (c : N) : N :=
  if (65 <=? c) && (c <=? 90) then c + 32 else c.
Definition lower (s : pystr) : pystr := map lower_char s.

(** The Vorbis comment block of a FLAC file: its (key, value) pairs. *)
Abbreviation vcomment := (list (pystr * pystr)).

(** All values of a key, compared case-insensitively (mutagen's
    [VCommentDict.__getitem__] before its [KeyError] check). *)
Definition vc_values (vc : vcomment) (key : pystr) : list pystr :=
  map snd (filter (fun kv => bool_decide (lower kv.1 = lower key)) vc).

(** [tags[key]]: raises [KeyError] when the key has no value. *)
Definition vc_getitem (vc : vcomment) (key : pystr) : except (list pystr) :=
  match vc_values vc key with
  | [] => inl KeyError
  | vs => inr vs
  end.

(** [tags.get(key, default)] *)
Definition vc_get (vc : vcomment) (key : pystr) (default : list pystr)
  : list pystr :=
  match vc_getitem vc key with
  | inl _ => default
  | inr vs => vs
  end.

(** [l[0]] *)
Definition py_index0 {A} (l : list A) : except A :=
  match l with
  | [] => inl IndexError
  | x :: _ => inr x
  end.

(** [PyLong_FromString] in base 10 on an ASCII literal: surrounding ASCII
    whitespace, an optional sign, decimal digits with single underscores
    between them. *)
Definition is_space (c : N) : bool := in_chars [32; 9; 10; 11; 12; 13] c.

Fixpoint lstrip_ws (s : pystr) : pystr :=
  match s with
  | c :: s' => if is_space c then lstrip_ws s' else s
  | [] => []
  end.

Definition strip_ws (s : pystr) : pystr := rev (lstrip_ws (rev (lstrip_ws s))).

Definition is_digit (c : N) : bool := (48 <=? c) && (c <=? 57).

Fixpoint digits_acc (s : pystr) (acc : Z) (after_us : bool) : option Z :=
  match s with
  | [] => if after_us then None else Some acc
  | c :: s' =>
      if is_digit c then digits_acc s' (acc * 10 + Z.of_N (c - 48))%Z false
      else if N.eqb c c_under && negb after_us then digits_acc s' acc true
      else None
  end.

Definition long_from_ascii (s : pystr) : option Z :=
  let s := strip_ws s in
  let '(sign, body) :=
    match s with
    | 45 :: b => ((-1)%Z, b)
    | 43 :: b => (1%Z, b)
    | _ => (1%Z, s)
    end in
  match body with
  | c :: _ => if is_digit c then option_map (Z.mul sign) (digits_acc body 0 false)
              else None
  | [] => None
  end.

(** The characters from U+007F up that [str.isspace] accepts
    ([Py_UNICODE_ISSPACE], Unicode 14.0 as in CPython 3.11). *)
Definition unicode_spaces : list N :=
  [133; 160; 5760; 8192; 8193; 8194; 8195; 8196; 8197; 8198; 8199; 8200;
   8201; 8202; 8232; 8233; 8239; 8287; 12288].

(** The Unicode decimal digits zero from U+007F up (Unicode 14.0); every
    decimal digit is one of them or one of the nine code points after one
    of them, with the value of the distance. *)
Definition unicode_digit_zeros : list N :=
  [1632; 1776; 1984; 2406; 2534; 2662; 2790; 2918; 3046; 3174; 3302; 3430;
   3558; 3664; 3792; 3872; 4160; 4240; 6112; 6160; 6470; 6608; 6784; 6800;
   6992; 7088; 7232; 7248; 42528; 43216; 43264; 43472; 43504; 43600; 44016;
   65296; 66720; 68912; 69734; 69872; 69942; 70096; 70384; 70736; 70864;
   71248; 71360; 71472; 71904; 72016; 72784; 73040; 73120; 92768; 92864;
   93008; 120782; 120792; 120802; 120812; 120822; 123200; 123632; 125264;
   130032].

(** [Py_UNICODE_TODECIMAL] from U+007F up. *)
Definition unicode_decimal (c : N) : option N :=
  match List.find (fun z => (z <=? c) && (c <? z + 10)) unicode_digit_zeros with
  | Some z => Some (c - z)
  | None => None
  end.

(** [_PyUnicode_TransformDecimalAndSpaceToASCII]: a character below 127
    is kept, Unicode whitespace becomes a space, a Unicode decimal digit
    becomes its ASCII digit; at any other character the function writes a
    '?' and stops, which makes the literal invalid ([None]). *)
Fixpoint to_ascii_decimal (s : pystr) : option pystr :=
  match s with
  | [] => Some []
  | c :: s' =>
      let c' := if c <? 127 then Some c
                else if in_chars unicode_spaces c then Some 32
                else option_map (fun d => 48 + d) (unicode_decimal c) in
      match c', to_ascii_decimal s' with
      | Some a, Some r => Some (a :: r)
      | _, _ => None
      end
  end.

Fixpoint digit_count (s : pystr) : nat :=
  match s with
  | [] => O
  | c :: s' => (if is_digit c then 1 else 0) + digit_count s'
  end%nat.

(** [sys.get_int_max_str_digits()] by default. *)
Definition int_max_str_digits : nat := 4300.

(** [int(s)] for a [str] ([PyLong_FromUnicodeObject], CPython 3.11): the
    literal is mapped to ASCII, then parsed; one of more than
    [int_max_str_digits] digits raises ValueError. *)
Definition py_int (s : pystr) : option Z :=
  match to_ascii_decimal s with
  | None => None
  | Some a =>
      if (int_max_str_digits <? digit_count a)%nat then None
      else long_from_ascii a
  end.

(** Decimal digits of a non-negative integer. *)
Fixpoint digits_of (fuel : nat) (n : Z) (acc : pystr) : pystr :=
  match fuel with
  | O => acc
  | S f =>
      let acc := Z.to_N (48 + n mod 10) :: acc in
      if (n <? 10)%Z then acc else digits_of f (n / 10) acc
  end.

Definition dec (n : Z) : pystr := digits_of (S (Z.to_nat (Z.log2 n))) n [].

(** [f"{n:02d}"]: sign, then digits zero-padded to a width of two.  In
    [get_title] the number comes from [int()] and has at most
    [int_max_str_digits] digits, within the limit of the conversion to a
    string. *)
Definition fmt02d (n : Z) : pystr :=
  if (n <? 0)%Z then 45 :: dec (- n)
  else let d := dec n in if (length d <? 2)%nat then 48 :: d else d.

Definition get_title (unidecode : pystr -> pystr) (src : vcomment)
  : except pystr :=
  let! disc := py_index0 (vc_get src (lit "DISCNUMBER") [[]]) in
  let disc := hd [] (split_on c_slash disc) in
  let! track := py_index0 (vc_get src (lit "TRACKNUMBER") [[]]) in
  let track := hd [] (split_on c_slash track) in
  let! disc := if nonempty disc
               then match py_int disc with
                    | Some n => inr (fmt02d n ++ lit ".")
                    | None => inl ValueError
                    end
               else inr disc in
  let! track := if nonempty track
                then match py_int track with
                     | Some n => inr (fmt02d n)
                     | None => inl ValueError
                     end
                else inr track in
  let prefix := disc ++ track in
  let prefix := if nonempty prefix then prefix ++ lit " " else prefix in
  let! titles := vc_getitem src (lit "TITLE") in
  let! title0 := py_index0 titles in
  let! title := safe_chars_only unidecode (replace (lit "/") (lit "-") title0)
                  true in
  inr (prefix ++ title).

(** The file name of a track in the words of the specification: disc
    number and '.', track number, a space if either was written, then the
    normalised title. *)
Definition spec_title (disc track : option Z) (title : pystr) : pystr :=
  let d := match disc with Some n => fmt02d n ++ lit "." | None => [] end in
  let t := match track with Some n => fmt02d n | None => [] end in
  let sp := match disc, track with None, None => [] | _, _ => lit " " end in
  d ++ t ++ sp ++ title.

(** A number tag: absent, or its first value's part before '/' is an
    integer literal. *)
Definition number_tag (vc : vcomment) (key : pystr) (o : option Z) : Prop :=
  match o with
  | None => vc_values vc key = []
  | Some n => exists v vs, vc_values vc key = v :: vs /\
                           py_int (hd [] (split_on c_slash v)) = Some n
  end.

(* ------------------------------------------------------------------ *)
(** ** Tag synchronisation in sync_flac *)

(** A tag mapping as [dict(tags)] gives it: lower-case key to values. *)
Abbreviation tagmap := (gmap pystr (list pystr)).

(** [dict(src_m.tags)] for a FLAC Vorbis comment block. *)
Definition vc_dict (vc : vcomment) : tagmap :=
  foldr (fun kv m => <[lower kv.1 := vc_values vc kv.1]> m) ∅ vc.

(** The keys that mutagen's EasyID3 (mutagen 1.47) registers by name:
    its text frames, genre, date, originaldate, website, the MusicBrainz
    track id and its TXXX keys.  It also registers the patterns
    [performer:*], [replaygain_*_gain] and [replaygain_*_peak]. *)
Definition easyid3_names : list pystr :=
  map lit ["album"; "bpm"; "compilation"; "composer"; "copyright";
           "encodedby"; "lyricist"; "length"; "media"; "mood"; "grouping";
           "title"; "version"; "artist"; "albumartist"; "conductor";
           "arranger"; "discnumber"; "organization"; "tracknumber";
           "author"; "albumartistsort"; "albumsort"; "composersort";
           "artistsort"; "titlesort"; "isrc"; "discsubtitle"; "language";
           "genre"; "date"; "originaldate"; "musicbrainz_trackid";
           "website"; "musicbrainz_artistid"; "musicbrainz_albumid";
           "musicbrainz_albumartistid"; "musicbrainz_trmid";
           "musicip_puid"; "musicip_fingerprint";
           "musicbrainz_albumstatus"; "musicbrainz_albumtype";
           "releasecountry"; "musicbrainz_discid"; "asin"; "performer";
           "barcode"; "catalognumber"; "musicbrainz_releasetrackid";
           "musicbrainz_releasegroupid"; "musicbrainz_workid";
           "acoustid_fingerprint"; "acoustid_id"]%string.

(** For a key that [fnmatchcase] matches against [replaygain_*_gain] or
    [replaygain_*_peak] (on [key.lower()]), the description
    [key[11:-5]] of the RVA2 frame that the getter reads. *)
Definition replaygain_desc (k : pystr) : option pystr :=
  let lk := lower k in
  if (16 <=? length k)%nat && starts_with (lit "replaygain_") lk &&
     (ends_with (lit "_gain") lk || ends_with (lit "_peak") lk)
  then Some (take (length k - 16) (drop 11 k))
  else None.

(** Whether [dst_m[tag]] raises [EasyID3KeyError] on an EasyMP3
    destination whose mapping [dict(dst_m.tags)] is [dst].  A key that
    EasyID3 does not register raises it.  The replaygain getters raise it
    when the destination has no RVA2 frame of the key's description, and
    [dict(dst_m.tags)] lists such a frame as [replaygain_<desc>_gain].  The
    website getter raises it when the destination has no WOAR frame, and
    [dict(dst_m.tags)] lists WOAR frames as [website].  The other getters
    raise at most a plain [KeyError], which the loop passes over. *)
Definition easyid3_key_error (dst : tagmap) (k : pystr) : bool :=
  let lk := lower k in
  if mem lk easyid3_names then
    if bool_decide (lk = lit "website")
    then match dst !! lit "website" with Some _ => false | None => true end
    else false
  else if starts_with (lit "performer:") lk then false
  else match replaygain_desc k with
       | Some d =>
           match dst !! (lit "replaygain_" ++ d ++ lit "_gain") with
           | Some _ => false
           | None => true
           end
       | None => true
       end.

Definition replaygain_keys : list pystr :=
  map lit ["replaygain_track_gain"; "replaygain_track_peak";
           "replaygain_album_gain"; "replaygain_album_peak"]%string.

(** [del d[tag]] for each tag of [tags] that is in [d]. *)
Definition del_keys (tags : list pystr) (d : tagmap) : tagmap :=
  foldr delete d tags.

Section SyncFlac.

(** The mapping [dict(dst_m.tags)] of an EasyMP3 destination whose
    mapping was [dst], after [dst_m.tags.clear()], the assignment
    [dst_m.tags[k] = v] of each item of [items] and the save, or the
    exception one of these raises.  EasyID3 may store a value in a
    normalised form (a numeric genre is read back as its name, a date is
    reformatted) and creates an RVA2 frame with both a gain and a peak,
    so this is left abstract. *)
Variable id3_write : tagmap -> tagmap -> except tagmap.

(** The tag part of [sync_flac(args)]: whether the file is rewritten and
    the destination's mapping after the call.  For mp3, each source key
    for which [dst_m[tag]] raises [EasyID3KeyError] is deleted from
    [src_m.tags] before comparing and copying, and the four replaygain
    keys are left out of the comparison only.  When the mappings differ,
    the destination tags are cleared and every remaining source item is
    assigned.  An Ogg Vorbis comment block stores the items as given, and
    the file is saved through a temporary copy and a rename. *)
Definition sync_flac_tags (format : pystr) (src dst : tagmap)
  : except (bool * tagmap) :=
  let! src :=
    if bool_decide (format = lit "ogg") then inr src
    else if bool_decide (format = lit "mp3")
    then inr (filter (fun kv => easyid3_key_error dst kv.1 = false) src)
    else inl PyException in
  let src_tags := src in
  let dst_tags := dst in
  let '(src_tags, dst_tags) :=
    if bool_decide (format = lit "mp3")
    then (del_keys replaygain_keys src_tags, del_keys replaygain_keys dst_tags)
    else (src_tags, dst_tags) in
  if bool_decide (src_tags <> dst_tags)
  then if bool_decide (format = lit "ogg") then inr (true, src)
       else let! r := id3_write dst src in inr (true, r)
  else inr (false, dst).

End SyncFlac.

(** The declared exclusions of the comparison. *)
Definition declared_exclusions (format : pystr) : list pystr :=
  if bool_decide (format = lit "mp3") then replaygain_keys else [].

(* ------------------------------------------------------------------ *)
(** ** A state and exception monad *)

Definition St (S A : Type) : Type := S -> S * except A.

Definition st_ret {S A} (a : A) : St S A := fun s => (s, inr a).

Definition st_raise {S A} (e : exn) : St S A := fun s => (s, inl e).

Definition st_bind {S A B} (m : St S A) (k : A -> St S B) : St S B :=
  fun s =>
    let '(s', r) := m s in
    match r with
    | inl e => (s', inl e)
    | inr a => k a s'
    end.

Notation "'let*' x ':=' m 'in' k" := (st_bind m (fun x => k))
  (at level 200, x name, m at level 100, k at level 200).

(* ------------------------------------------------------------------ *)
(** ** os.path.dirname and os.path.join *)

Fixpoint drop_until_slash (r : pystr) : pystr :=
  match r with
  | c :: r' => if N.eqb c c_slash then r else drop_until_slash r'
  | [] => []
  end.

Fixpoint drop_slashes (r : pystr) : pystr :=
  match r with
  | c :: r' => if N.eqb c c_slash then drop_slashes r' else r
  | [] => []
  end.

(** [posixpath.dirname]: [head = p[:p.rfind('/') + 1]], then trailing
    slashes stripped unless [head] is all slashes. *)
Definition dirname (p : pystr) : pystr :=
  let head := rev (drop_until_slash (rev p)) in
  if nonempty head && negb (forallb (N.eqb c_slash) head)
  then rev (drop_slashes (rev head))
  else head.

(** [posixpath.join(a, b)] for two components. *)
Definition path_join (a b : pystr) : pystr :=
  if starts_with [c_slash] b then b
  else if negb (nonempty a) || ends_with [c_slash] a then a ++ b
  else a ++ [c_slash] ++ b.

(* ------------------------------------------------------------------ *)
(** ** The access filter [_has_access] *)

Inductive ftype := FReg | FDir | FLnk (target : pystr).

(** What [os.lstat] reports (and [os.readlink] for a link). *)
Record node := { n_type : ftype; n_mode : N; n_uid : N; n_gid : N }.

Definition S_IRUSR : N := 256.
Definition S_IXUSR : N := 64.
Definition S_IRGRP : N := 32.
Definition S_IXGRP : N := 8.
Definition S_IROTH : N := 4.
Definition S_IXOTH : N := 1.

(** Keys of the Python dict [access]: the code tests [path in access]
    with a string but stores under [(path, target)] tuples. *)
Inductive pykey := KStr (s : pystr) | KPair (s : pystr) (b : bool).

Definition pykey_eqb (a b : pykey) : bool :=
  match a, b with
  | KStr x, KStr y => bool_decide (x = y)
  | KPair x t, KPair y u => bool_decide (x = y) && Bool.eqb t u
  | _, _ => false
  end.

Abbreviation pydict := (list (pykey * bool)).

Definition dict_contains (d : pydict) (k : pykey) : bool :=
  existsb (fun kv => pykey_eqb kv.1 k) d.

Definition dict_getitem (d : pydict) (k : pykey) : except bool :=
  match find (fun kv => pykey_eqb kv.1 k) d with
  | Some kv => inr kv.2
  | None => inl KeyError
  end.

Definition dict_setitem (d : pydict) (k : pykey) (v : bool) : pydict :=
  if dict_contains d k
  then map (fun kv => if pykey_eqb kv.1 k then (k, v) else kv) d
  else d ++ [(k, v)].

(** The memo [access] and, as ghost state, the paths passed to
    [os.lstat] in order. *)
Record astate := { memo : pydict; lstat_log : list pystr }.

Section Access.

(** [user]: [None] without [--user], else its uid and its groups. *)
Variable user : option (N * list N).
Variable src : pystr.
Variable lstat : pystr -> option node.

Definition a_in (k : pykey) : St astate bool :=
  fun s => (s, inr (dict_contains (memo s) k)).

Definition a_get (k : pykey) : St astate bool :=
  fun s => (s, dict_getitem (memo s) k).

Definition a_set (k : pykey) (v : bool) : St astate unit :=
  fun s => ({| memo := dict_setitem (memo s) k v; lstat_log := lstat_log s |},
            inr tt).

Definition a_lstat (p : pystr) : St astate (option node) :=
  fun s => ({| memo := memo s; lstat_log := lstat_log s ++ [p] |}, inr (lstat p)).

Definition mode_any (mode bits : N) : bool := negb (N.eqb (N.land mode bits) 0).
Definition mode_all (mode bits : N) : bool := N.eqb (N.land mode bits) bits.

(** [_has_access(path, target)]; [fuel] bounds the recursion depth, its
    exhaustion is Python's [RecursionError]. *)
Fixpoint has_access (fuel : nat) (path : pystr) (target : bool)
  : St astate bool :=
  match user with
  | None => st_ret true
  | Some (uid, groups) =>
    match fuel with
    | O => st_raise RecursionError
    | S f =>
      let key := KPair path target in
      let* cached := a_in (KStr path) in
      if cached then a_get key else
      let parent := dirname path in
      let* parent_ok :=
        if bool_decide (parent <> path) then has_access f parent target
        else st_ret true in
      if negb parent_ok then let* _ := a_set key false in st_ret false else
      let* st := a_lstat path in
      match st with
      | None => let* _ := a_set key false in st_ret false
      | Some st =>
        let mode := n_mode st in
        let in_groups := existsb (N.eqb (n_gid st)) groups in
        let* _ :=
          match n_type st with
          | FLnk t =>
              let* r := has_access f (path_join (dirname path) t) true in
              a_set key r
          | FDir =>
              let narrow := target || (length path <=? length src)%nat in
              a_set key
                (if N.eqb (n_uid st) uid then
                   if narrow then mode_any mode S_IXUSR
                   else mode_all mode (N.lor S_IRUSR S_IXUSR)
                 else if in_groups then
                   if narrow then mode_any mode S_IXGRP
                   else mode_all mode (N.lor S_IRGRP S_IXGRP)
                 else
                   if narrow then mode_any mode S_IXOTH
                   else mode_all mode (N.lor S_IROTH S_IXOTH))
          | FReg =>
              a_set key
                (if N.eqb (n_uid st) uid then mode_any mode S_IRUSR
                 else if in_groups then mode_any mode S_IRGRP
                 else mode_any mode S_IROTH)
          end in
        a_get key
      end
    end
  end.

End Access.

(** A small tree: [/] and [/music] are directories with mode 0o755 and
    [/music/a.flac] a file with mode 0o644, owned by uid 1000 except the root. *)
Definition music_fs (p : pystr) : option node :=
  if bool_decide (p = lit "/") then
    Some {| n_type := FDir; n_mode := 493; n_uid := 0; n_gid := 0 |}
  else if bool_decide (p = lit "/music") then
    Some {| n_type := FDir; n_mode := 493; n_uid := 1000; n_gid := 100 |}
  else if bool_decide (p = lit "/music/a.flac") then
    Some {| n_type := FReg; n_mode := 420; n_uid := 1000; n_gid := 100 |}
  else None.

(* ------------------------------------------------------------------ *)
(** ** The reconciliation and mutation phases of sync_paths *)

(** Effects on the destination tree, with the [safe_filename] assertions
    as ghost events; names are relative to [dst]. *)
Inductive event :=
| EvCheck (name : pystr) (ok : bool)        (* assert safe_filename(name) *)
| EvUnlink (name : pystr)                    (* os.unlink *)
| EvRmtree (name : pystr)                    (* shutil.rmtree *)
| EvMakedirs (name : pystr)                  (* os.makedirs *)
| EvRoundMtime (name : pystr)                (* round_mtime *)
| EvCopy (dst_name : pystr)                  (* cp to name~, rename *)
| EvTranscode (dst_name format : pystr)      (* encoder to name.fmt~, rename *)
| EvRetag (dst_name format : pystr).         (* tags saved via name.fmt~ *)

Abbreviation M := (St (list event)).

Definition emit (e : event) : M unit := fun tr => (tr ++ [e], inr tt).

Definition m_lift {A} (x : except A) : M A := fun tr => (tr, x).

Definition assert_safe (name : pystr) : M unit :=
  let* _ := emit (EvCheck name (safe_filename name)) in
  m_lift (py_assert (safe_filename name)).

Fixpoint m_iter {A} (f : A -> M unit) (l : list A) : M unit :=
  match l with
  | [] => st_ret tt
  | x :: l' => let* _ := f x in m_iter f l'
  end.

(** [s.remove(x)] on a set and [d[k]] on a dict. *)
Definition set_remove (x : pystr) (s : gset pystr) : except (gset pystr) :=
  if bool_decide (x ∈ s) then inr (s ∖ {[x]}) else inl KeyError.

Definition dict_lookup (d : gmap pystr pystr) (k : pystr) : except pystr :=
  match d !! k with
  | Some v => inr v
  | None => inl KeyError
  end.

(** The normalisation policy: [Rewrite] if [--rewrite], else [Android] if
    [--android], else [Identity]. *)
Inductive policy := Identity | Rewrite | Android.

Record config := { c_format : pystr; c_fat : bool; c_policy : policy }.

(** What the run observes: the scanned inventories ([w_src_files] in the
    iteration order of the set, after [filter_file] and [_has_access];
    [w_src_dirs] the normalised ancestor directories the scan collected),
    the [st_mtime] of [os.lstat] on either side, the FLAC tags, and
    whether [sync_flac] finds the tag mappings of a destination file
    different. *)
Record world := {
  w_src_files : list pystr;
  w_src_dirs : gset pystr;
  w_dst_files : gset pystr;
  w_dst_dirs : gset pystr;
  w_src_mtime : pystr -> Q;
  w_dst_mtime : pystr -> Q;
  w_flac_tags : pystr -> vcomment;
  w_tags_differ : pystr -> bool }.

Record src_sets := {
  flac_files : gset pystr;
  flac_map : gmap pystr pystr;
  as_format_files : gset pystr;
  not_flac_files : gset pystr;
  not_flac_map : gmap pystr pystr }.

Definition empty_src_sets : src_sets :=
  {| flac_files := ∅; flac_map := ∅; as_format_files := ∅;
     not_flac_files := ∅; not_flac_map := ∅ |}.

Definition dot_format (name format : pystr) : pystr := name ++ [c_dot] ++ format.

Section Reconcile.

Variable unidecode : pystr -> pystr.
Variable cfg : config.
Variable w : world.

Definition format := c_format cfg.

(** One iteration of [for name in src_files]: whether the file is a
    FLAC file, its logical name and the physical name stored in the map. *)
Definition classify (name : pystr) : except (bool * pystr * pystr) :=
  let parts := split_on c_dot name in
  if bool_decide (List.last parts [] = lit "flac") then
    let name := join [c_dot] (removelast parts) in
    let! modified_name :=
      match c_policy cfg with
      | Rewrite =>
          let! d := safe_chars_only unidecode (dirname name) false in
          let! t := get_title unidecode
                      (w_flac_tags w (name ++ lit ".flac")) in
          inr (path_join d t)
      | Android => android_safe_chars_only name
      | Identity => inr name
      end in
    inr (true, modified_name, name)
  else
    let! modified_name :=
      match c_policy cfg with
      | Rewrite => safe_chars_only unidecode name false
      | Android => android_safe_chars_only name
      | Identity => inr name
      end in
    inr (false, modified_name, name).

Definition add_src_file (ss : src_sets) (name : pystr) : except src_sets :=
  let! r := classify name in
  let '(is_flac, m, phys) := r in
  if is_flac then
    inr {| flac_files := {[m]} ∪ flac_files ss;
           flac_map := <[m := phys]> (flac_map ss);
           as_format_files := {[dot_format m format]} ∪ as_format_files ss;
           not_flac_files := not_flac_files ss;
           not_flac_map := not_flac_map ss |}
  else
    inr {| flac_files := flac_files ss;
           flac_map := flac_map ss;
           as_format_files := {[m]} ∪ as_format_files ss;
           not_flac_files := {[m]} ∪ not_flac_files ss;
           not_flac_map := <[m := phys]> (not_flac_map ss) |}.

Fixpoint build_src_sets (l : list pystr) (ss : src_sets) : except src_sets :=
  match l with
  | [] => inr ss
  | name :: l' => let! ss := add_src_file ss name in build_src_sets l' ss
  end.

(** [dst_format_files] *)
Definition dst_format_of (dst_files : gset pystr) : gset pystr :=
  set_map (fun n => join [c_dot] (removelast (split_on c_dot n)))
    (filter (fun n => List.last (split_on c_dot n) [] = format) dst_files).

Definition flac_stale (fmap : gmap pystr pystr) (name : pystr) : bool :=
  match fmap !! name with
  | Some phys => Qle_bool (w_dst_mtime w (dot_format name format))
                          (w_src_mtime w (phys ++ lit ".flac"))
  | None => false
  end.

Definition other_stale (nmap : gmap pystr pystr) (name : pystr) : bool :=
  match nmap !! name with
  | Some phys => Qle_bool (w_dst_mtime w name) (w_src_mtime w phys)
  | None => false
  end.

(** [for name in src_flac_files & dst_format_files: ...] *)
Fixpoint refresh_flac (fmap : gmap pystr pystr) (names : list pystr)
    (dff df : gset pystr) : M (gset pystr * gset pystr) :=
  match names with
  | [] => st_ret (dff, df)
  | name :: rest =>
      let* phys := m_lift (dict_lookup fmap name) in
      if Qle_bool (w_dst_mtime w (dot_format name format))
                  (w_src_mtime w (phys ++ lit ".flac")) then
        let* _ := emit (EvUnlink (dot_format name format)) in
        let* dff := m_lift (set_remove name dff) in
        let* df := m_lift (set_remove (dot_format name format) df) in
        refresh_flac fmap rest dff df
      else refresh_flac fmap rest dff df
  end.

(** [for name in src_not_flac_files & dst_files: ...] *)
Fixpoint refresh_other (nmap : gmap pystr pystr) (names : list pystr)
    (df : gset pystr) : M (gset pystr) :=
  match names with
  | [] => st_ret df
  | name :: rest =>
      let* phys := m_lift (dict_lookup nmap name) in
      if Qle_bool (w_dst_mtime w name) (w_src_mtime w phys) then
        let* _ := emit (EvUnlink name) in
        let* df := m_lift (set_remove name df) in
        refresh_other nmap rest df
      else refresh_other nmap rest df
  end.

(** The scan-and-diff phase, up to the worker pool; it returns the source
    sets and the final [dst_format_files] and [dst_files]. *)
Definition reconcile : M (src_sets * gset pystr * gset pystr) :=
  let* ss := m_lift (build_src_sets (w_src_files w) empty_src_sets) in
  let dff0 := dst_format_of (w_dst_files w) in
  let* r := refresh_flac (flac_map ss) (elements (flac_files ss ∩ dff0))
                         dff0 (w_dst_files w) in
  let '(dff, df) := r in
  let* df := refresh_other (not_flac_map ss)
                           (elements (not_flac_files ss ∩ df)) df in
  let* _ := m_iter (fun name => let* _ := assert_safe name in
                                emit (EvUnlink name))
                   (elements (df ∖ as_format_files ss)) in
  let* _ := m_iter (fun name => let* _ := assert_safe name in
                                emit (EvRmtree name))
                   (elements (w_dst_dirs w ∖ w_src_dirs w)) in
  let* _ := m_iter (fun name => let* _ := assert_safe name in
                                emit (EvMakedirs name))
                   (elements (w_src_dirs w ∖ w_dst_dirs w)) in
  let* _ := if c_fat cfg
            then m_iter (fun name => emit (EvRoundMtime name))
                        (elements (w_src_dirs w ∩ w_dst_dirs w))
            else st_ret tt in
  st_ret (ss, dff, df).

Definition copy_file (src_name dst_name : pystr) : M unit :=
  let* _ := assert_safe src_name in
  let* _ := assert_safe dst_name in
  let* _ := emit (EvCopy dst_name) in
  if c_fat cfg then emit (EvRoundMtime dst_name) else st_ret tt.

Definition known_format : bool :=
  bool_decide (format = lit "ogg") || bool_decide (format = lit "mp3").

Definition sync_flac (src_name dst_name : pystr) : M unit :=
  let* _ := assert_safe src_name in
  let* _ := assert_safe dst_name in
  let* _ := if known_format then st_ret tt else st_raise PyException in
  let* _ := if w_tags_differ w dst_name
            then emit (EvRetag dst_name format) else st_ret tt in
  if c_fat cfg then emit (EvRoundMtime (dot_format dst_name format))
  else st_ret tt.

Definition copy_flac (src_name dst_name : pystr) : M unit :=
  let* _ := assert_safe src_name in
  let* _ := assert_safe dst_name in
  let* _ := if known_format then emit (EvTranscode dst_name format)
            else st_raise PyException in
  sync_flac src_name dst_name.

(** The three job lists handed to the pool. *)
Definition copy_jobs (ss : src_sets) (df : gset pystr) : gset pystr :=
  not_flac_files ss ∖ df.
Definition transcode_jobs (ss : src_sets) (dff : gset pystr) : gset pystr :=
  flac_files ss ∖ dff.
Definition tagsync_jobs (ss : src_sets) (dff : gset pystr) : gset pystr :=
  flac_files ss ∩ dff.

(** [sync_paths] after the scan; the pool's jobs run one after another
    (each job's own effects keep their order). *)
Definition sync_paths : M unit :=
  let* r := reconcile in
  let '(ss, dff, df) := r in
  let* _ := m_iter (fun name =>
                      let* s := m_lift (dict_lookup (not_flac_map ss) name) in
                      copy_file s name)
                   (elements (copy_jobs ss df)) in
  let* _ := m_iter (fun name =>
                      let* s := m_lift (dict_lookup (flac_map ss) name) in
                      copy_flac s name)
                   (elements (transcode_jobs ss dff)) in
  m_iter (fun name =>
            let* s := m_lift (dict_lookup (flac_map ss) name) in
            sync_flac s name)
         (elements (tagsync_jobs ss dff)).

End Reconcile.

(** The name a mutation of the destination tree acts on, for the kinds the
    safety requirement lists (unlink, rmtree, makedirs, copy, transcode,
    tag rewrite). *)
Definition mutated_name (e : event) : option pystr :=
  match e with
  | EvUnlink n | EvRmtree n | EvMakedirs n | EvCopy n => Some n
  | EvTranscode n _ | EvRetag n _ => Some n
  | EvCheck _ _ | EvRoundMtime _ => None
  end.

(** Every listed mutation comes after a passed check of its name. *)
Fixpoint mutations_checked (checked : list pystr) (tr : list event) : bool :=
  match tr with
  | [] => true
  | EvCheck n true :: tr' => mutations_checked (n :: checked) tr'
  | e :: tr' =>
      match mutated_name e with
      | Some n => mem n checked
      | None => true
      end && mutations_checked checked tr'
  end.


(** Whether [classify] succeeds on a source name, and the physical names,
    in iteration order, of the files of one kind that [classify] sends to
    the logical name [m]. *)
Definition classifies (unidecode : pystr -> pystr) (cfg : config) (w : world)
    (p : pystr) : bool :=
  match classify unidecode cfg w p with inr _ => true | inl _ => false end.

Definition physical_names (unidecode : pystr -> pystr) (cfg : config)
    (w : world) (is_flac : bool) (m : pystr) (l : list pystr) : list pystr :=
  omap (fun p =>
          match classify unidecode cfg w p with
          | inr (b, m', phys) =>
              if bool_decide (b = is_flac /\ m' = m) then Some phys else None
          | inl _ => None
          end) l.

(** Sample runs. *)
Definition cfg_ogg : config :=
  {| c_format := lit "ogg"; c_fat := false; c_policy := Identity |}.

Definition cfg_android_ogg : config :=
  {| c_format := lit "ogg"; c_fat := false; c_policy := Android |}.

(** [a.flac] and [b.mp3] newer than their copies [a.ogg] and [b.mp3]. *)
Definition refresh_world : world :=
  {| w_src_files := [lit "a.flac"; lit "b.mp3"]; w_src_dirs := ∅;
     w_dst_files := {[lit "a.ogg"; lit "b.mp3"]}; w_dst_dirs := ∅;
     w_src_mtime := fun _ => 10%Q; w_dst_mtime := fun _ => 5%Q;
     w_flac_tags := fun _ => []; w_tags_differ := fun _ => true |}.

(** Two source files that the Android policy sends to [a_b.mp3]. *)
Definition collide_world : world :=
  {| w_src_files := [lit "a*b.mp3"; lit "a_b.mp3"]; w_src_dirs := ∅;
     w_dst_files := ∅; w_dst_dirs := ∅;
     w_src_mtime := fun _ => 10%Q; w_dst_mtime := fun _ => 5%Q;
     w_flac_tags := fun _ => []; w_tags_differ := fun _ => true |}.

(** A source [a.ogg] (mtime 1) older than the destination [a.ogg]
    (mtime 5), next to a newer [a.flac] (mtime 10). *)
Definition shadow_world : world :=
  {| w_src_files := [lit "a.flac"; lit "a.ogg"]; w_src_dirs := ∅;
     w_dst_files := {[lit "a.ogg"]}; w_dst_dirs := ∅;
     w_src_mtime := fun p => if bool_decide (p = lit "a.flac") then 10%Q
                             else 1%Q;
     w_dst_mtime := fun _ => 5%Q;
     w_flac_tags := fun _ => []; w_tags_differ := fun _ => true |}.

(* ------------------------------------------------------------------ *)
(** ** Auxiliary definitions for the further properties *)

(** A pattern made only of separators and dots. *)
Definition sep_only (p : pystr) : bool :=
  forallb (fun a => N.eqb a c_slash || N.eqb a c_dot) p.

(** One step of the decimal accumulator of [digits_acc]. *)
Definition dstep (a : Z) (c : N) : Z := (a * 10 + Z.of_N (c - 48))%Z.

(** A FLAC comment block, a rewrite configuration and a one-file source
    tree using them. *)
Definition sample_tags : vcomment :=
  [(lit "TITLE", lit "Song/Intro?"); (lit "TRACKNUMBER", lit "1/12");
   (lit "DISCNUMBER", lit "2")].

Definition cfg_rewrite_ogg : config :=
  {| c_format := lit "ogg"; c_fat := false; c_policy := Rewrite |}.

Definition tagged_world : world :=
  {| w_src_files := [lit "Artist/Album/01.flac"];
     w_src_dirs := {[lit "Artist"; lit "Artist/Album"]};
     w_dst_files := ∅; w_dst_dirs := ∅;
     w_src_mtime := fun _ => 10%Q; w_dst_mtime := fun _ => 5%Q;
     w_flac_tags := fun _ => sample_tags; w_tags_differ := fun _ => true |}.

(** A FLAC tag mapping with a title, a replaygain key and a key that
    EasyID3 does not register. *)
Definition flac_src_tags : tagmap :=
  <[lit "title" := [lit "Song"]]>
    (<[lit "replaygain_track_gain" := [lit "-6.0 dB"]]>
       (<[lit "x_custom" := [lit "1"]]> ∅)).

(** A computation of [M] that only appends to the trace: the appended
    block satisfies [Q] and a returned value satisfies [R]. *)
Definition appends {A} (Q : list event -> Prop) (R : A -> Prop) (m : M A)
  : Prop :=
  forall tr tr' r, m tr = (tr', r) ->
    exists blk, tr' = tr ++ blk /\ Q blk /\ forall a, r = inr a -> R a.

(** The effects the reconciliation phase may have on the destination tree
    of the world [w]. *)
Definition reconcile_effect (cfg : config) (w : world) (e : event) : Prop :=
  match e with
  | EvCheck _ _ => True
  | EvUnlink y => y ∈ w_dst_files w
  | EvRmtree y => y ∈ w_dst_dirs w ∖ w_src_dirs w
  | EvMakedirs y => y ∈ w_src_dirs w ∖ w_dst_dirs w
  | EvRoundMtime y => c_fat cfg = true /\ y ∈ w_src_dirs w ∩ w_dst_dirs w
  | EvCopy _ | EvTranscode _ _ | EvRetag _ _ => False
  end.

(** Every mutation other than an unlink comes after a passed check of its
    name. *)
Fixpoint checked_except_unlink (checked : list pystr) (tr : list event)
  : bool :=
  match tr with
  | [] => true
  | EvCheck n true :: tr' => checked_except_unlink (n :: checked) tr'
  | EvUnlink _ :: tr' => checked_except_unlink checked tr'
  | e :: tr' =>
      match mutated_name e with
      | Some n => mem n checked
      | None => true
      end && checked_except_unlink checked tr'
  end.

(* ================================================================== *)
(** * Properties *)

Example ex_safe1 : safe_filename (lit "a/b") = true. Proof. reflexivity. Qed.
Example ex_safe2 : safe_filename (lit "a/../b") = false. Proof. reflexivity. Qed.
Example ex_android : android_safe_chars_only (lit "a:b?*") = inr ([97; c_ratio; 98; c_rev_question; c_under]). Proof. reflexivity. Qed.
Example ex_sco : safe_chars_only (fun s => s) (lit "P!nk/Best of.../x") false = inr (lit "Pink/Best of/x"). Proof. reflexivity. Qed.
Example ex_sco2 : safe_chars_only (fun s => s) (lit "a/b") true = inr (lit "a_b"). Proof. reflexivity. Qed.

(* ------------------------------------------------------------------ *)
(** ** String lemmas *)

Lemma replace_fuel_single (a b : N) (s : pystr) (n : nat) :
  (length s <= n)%nat ->
  replace_fuel n [a] [b] s = map (fun c => if N.eqb c a then b else c) s.
Proof.
  revert n. induction s as [|c s IH]; intros n Hn; destruct n; simpl in *;
    try reflexivity; try lia.
  rewrite (N.eqb_sym a c). destruct (N.eqb c a); simpl; rewrite IH by lia;
    reflexivity.
Qed.

Lemma replace_single (a b : N) (s : pystr) :
  replace [a] [b] s = map (fun c => if N.eqb c a then b else c) s.
Proof. apply replace_fuel_single. lia. Qed.

Lemma starts_with_app (p s : pystr) :
  starts_with p s = true -> exists t, s = p ++ t.
Proof.
  revert s. induction p as [|a p IH]; intros s H; simpl in *.
  - eauto.
  - destruct s as [|b s]; [discriminate|].
    apply andb_true_iff in H as [Hab H]. apply N.eqb_eq in Hab. subst b.
    destruct (IH s H) as [t ->]. eauto.
Qed.

Lemma ends_with_app (p s : pystr) :
  ends_with p s = true -> exists t, s = t ++ p.
Proof.
  unfold ends_with. intros H. apply starts_with_app in H as [t Ht].
  exists (rev t). rewrite <- (rev_involutive s), Ht, rev_app_distr,
    rev_involutive. reflexivity.
Qed.

Lemma contains_app (p s : pystr) :
  contains p s = true -> exists a b, s = a ++ p ++ b.
Proof.
  induction s as [|c s IH]; simpl; intros H.
  - apply orb_true_iff in H as [H|H]; [|discriminate].
    apply starts_with_app in H as [t Ht]. exists [], t. exact Ht.
  - apply orb_true_iff in H as [H|H].
    + apply starts_with_app in H as [t Ht]. exists [], t. exact Ht.
    + destruct (IH H) as [a [b ->]]. exists (c :: a), b. reflexivity.
Qed.

Lemma map_id_on {A} (f : A -> A) (l : list A) :
  (forall x, In x l -> f x = x) -> map f l = l.
Proof.
  induction l as [|x l IH]; simpl; intros H; [reflexivity|].
  rewrite H by auto. rewrite IH by auto. reflexivity.
Qed.

(* ------------------------------------------------------------------ *)
(** ** android_safe_chars_only *)

Definition android_step (c : N) : N :=
  let c := if N.eqb c 58 then c_ratio else c in
  let c := if N.eqb c 63 then c_rev_question else c in
  if re_unsafe_android c then c_under else c.

Lemma android_safe_chars_only_map (s : pystr) :
  s <> [] -> android_safe_chars_only s = inr (map android_step s).
Proof.
  intros Hs. unfold android_safe_chars_only.
  destruct s as [|c0 s0]; [congruence|]. simpl bind_exc. cbv beta.
  change (lit "?") with [63]. change (lit ":") with [58].
  rewrite !replace_single. unfold re_sub_class. rewrite !map_map.
  reflexivity.
Qed.

Lemma android_step_not_reserved (c : N) :
  re_unsafe_android (android_step c) = false.
Proof.
  unfold android_step.
  generalize (if (if c =? 58 then c_ratio else c) =? 63 then c_rev_question
              else if c =? 58 then c_ratio else c) as x.
  intros x. destruct (re_unsafe_android x) eqn:E; [reflexivity | exact E].
Qed.

Lemma android_step_fixed (c : N) :
  android_step (android_step c) = android_step c.
Proof.
  pose proof (android_step_not_reserved c) as Hr.
  set (x := android_step c) in *.
  assert (x <> 58) as H58.
  { intros E. rewrite E in Hr. discriminate. }
  assert (x <> 63) as H63.
  { intros E. rewrite E in Hr. discriminate. }
  unfold android_step at 1.
  apply N.eqb_neq in H58. apply N.eqb_neq in H63.
  rewrite H58, H63, Hr. reflexivity.
Qed.

(** C10: the AndroidSafe normaliser is idempotent on non-empty strings:
    applying it to its own output succeeds and gives the output back,
    since the output has none of the reserved characters. *)
Theorem android_safe_chars_only_idempotent (s : pystr) :
  s <> [] ->
  exists t, android_safe_chars_only s = inr t /\
            android_safe_chars_only t = inr t.
Proof.
  intros Hs. exists (map android_step s). split.
  - apply android_safe_chars_only_map. exact Hs.
  - rewrite android_safe_chars_only_map.
    + rewrite map_map. f_equal. apply map_ext. apply android_step_fixed.
    + destruct s; simpl; congruence.
Qed.

Lemma android_safe_chars_only_idempotent_witness :
  exists t, android_safe_chars_only (lit "a:b?c*") = inr t /\
            android_safe_chars_only t = inr t.
Proof.
  apply (android_safe_chars_only_idempotent (lit "a:b?c*")). discriminate.
Defined.

(* ------------------------------------------------------------------ *)
(** ** safe_chars_only produces safe names *)

Definition last_char (s : pystr) : option N := hd_error (rev s).

Fixpoint no_dot_slash (s : pystr) : bool :=
  match s with
  | a :: ((b :: _) as t) =>
      negb (N.eqb a c_dot && N.eqb b c_slash) && no_dot_slash t
  | _ => true
  end.

(** A well-formed relative name: no leading '/', no "./" anywhere and no
    '/' or '.' as last character. *)
Definition well_separated (s : pystr) : Prop :=
  hd_error s <> Some c_slash /\ no_dot_slash s = true /\
  last_char s <> Some c_slash /\ last_char s <> Some c_dot.

Lemma no_dot_slash_infix (a b : pystr) :
  no_dot_slash (a ++ c_dot :: c_slash :: b) = false.
Proof.
  induction a as [|x a IH]; [reflexivity|].
  simpl. destruct (a ++ c_dot :: c_slash :: b) eqn:E.
  - destruct a; discriminate.
  - rewrite IH. apply andb_false_r.
Qed.

Lemma last_char_app (t p : pystr) :
  p <> [] -> last_char (t ++ p) = last_char p.
Proof.
  intros Hp. unfold last_char. rewrite rev_app_distr.
  destruct (rev p) eqn:E; [|reflexivity].
  apply (f_equal (@rev N)) in E. rewrite rev_involutive in E. simpl in E. congruence.
Qed.

Lemma safe_filename_no_slash (s : pystr) :
  ~ In c_slash s -> safe_filename s = true.
Proof.
  intros Hs.
  assert (forall p, In c_slash p -> starts_with p s = false) as Hst.
  { intros p Hp. destruct (starts_with p s) eqn:E; [|reflexivity].
    apply starts_with_app in E as [t ->]. exfalso. apply Hs, in_or_app; auto. }
  assert (forall p, In c_slash p -> ends_with p s = false) as Hen.
  { intros p Hp. destruct (ends_with p s) eqn:E; [|reflexivity].
    apply ends_with_app in E as [t ->]. exfalso. apply Hs, in_or_app; auto. }
  assert (forall p, In c_slash p -> contains p s = false) as Hco.
  { intros p Hp. destruct (contains p s) eqn:E; [|reflexivity].
    apply contains_app in E as [a [b ->]]. exfalso.
    apply Hs, in_or_app. right. apply in_or_app; auto. }
  unfold safe_filename.
  rewrite !Hst, !Hen, !Hco by (simpl; auto). reflexivity.
Qed.

Lemma safe_filename_well_separated (s : pystr) :
  well_separated s -> safe_filename s = true.
Proof.
  intros (Hhd & Hnds & Hl1 & Hl2). unfold safe_filename.
  destruct (starts_with (lit "/") s) eqn:E1.
  { apply starts_with_app in E1 as [t ->].
    change (lit "/") with [c_slash] in Hhd. simpl in Hhd. congruence. }
  destruct (starts_with (lit "./") s) eqn:E2.
  { apply starts_with_app in E2 as [t ->].
    change (lit "./" ++ t) with ([] ++ c_dot :: c_slash :: t) in Hnds.
    rewrite no_dot_slash_infix in Hnds. discriminate. }
  destruct (starts_with (lit "../") s) eqn:E3.
  { apply starts_with_app in E3 as [t ->].
    change (lit "../" ++ t) with ([c_dot] ++ c_dot :: c_slash :: t) in Hnds.
    rewrite no_dot_slash_infix in Hnds. discriminate. }
  simpl orb.
  destruct (ends_with (lit "/") s) eqn:E4.
  { apply ends_with_app in E4 as [t ->].
    rewrite last_char_app in Hl1 by discriminate. cbv in Hl1. congruence. }
  destruct (ends_with (lit "/.") s) eqn:E5.
  { apply ends_with_app in E5 as [t ->].
    rewrite last_char_app in Hl2 by discriminate. cbv in Hl2. congruence. }
  destruct (ends_with (lit "/..") s) eqn:E6.
  { apply ends_with_app in E6 as [t ->].
    rewrite last_char_app in Hl2 by discriminate. cbv in Hl2. congruence. }
  simpl orb.
  destruct (contains (lit "/./") s) eqn:E7.
  { apply contains_app in E7 as [a [b ->]].
    change (lit "/./" ++ b) with ([c_slash] ++ c_dot :: c_slash :: b)
      in Hnds.
    rewrite app_assoc, no_dot_slash_infix in Hnds. discriminate. }
  destruct (contains (lit "/../") s) eqn:E8.
  { apply contains_app in E8 as [a [b ->]].
    change (lit "/../" ++ b) with ([c_slash; c_dot] ++ c_dot :: c_slash :: b)
      in Hnds.
    rewrite app_assoc, no_dot_slash_infix in Hnds. discriminate. }
  reflexivity.
Qed.

Lemma drop_dots_hd (r : pystr) : hd_error (drop_dots r) <> Some c_dot.
Proof.
  induction r as [|c r IH]; simpl; [discriminate|].
  destruct (N.eqb c c_dot) eqn:E; [exact IH|].
  simpl. intros H. injection H as ->. rewrite N.eqb_refl in E. discriminate.
Qed.

Lemma drop_dots_in (r : pystr) c : In c (drop_dots r) -> In c r.
Proof.
  induction r as [|x r IH]; simpl; [tauto|].
  destruct (N.eqb x c_dot); simpl; auto.
Qed.

Definition seg_ok (w : pystr) : Prop :=
  w <> [] /\ ~ In c_slash w /\ last_char w <> Some c_dot.

Lemma fat_safe_ok (x w : pystr) :
  fat_safe x = inr w ->
  w <> [] /\ last_char w <> Some c_dot /\ (forall c, In c w -> In c x).
Proof.
  unfold fat_safe. destruct (py_assert (nonempty x)); cbn [bind_exc];
    [discriminate|].
  destruct (py_assert (nonempty (rev (drop_dots (rev x))))) eqn:Ha;
    cbn [bind_exc]; [discriminate|].
  intros H. injection H as <-. split; [|split].
  - unfold py_assert in Ha. destruct (rev (drop_dots (rev x))); [|discriminate].
    discriminate.
  - unfold last_char. rewrite rev_involutive. apply drop_dots_hd.
  - intros c Hc. apply in_rev in Hc. apply drop_dots_in in Hc.
    apply in_rev. exact Hc.
Qed.

Lemma replace_slash_no_slash (y : pystr) :
  ~ In c_slash (replace [c_slash] [c_under] y).
Proof.
  rewrite replace_single. intros Hin. apply in_map_iff in Hin as [c [Hc _]].
  destruct (N.eqb c c_slash) eqn:E; [discriminate|].
  subst c. rewrite N.eqb_refl in E. discriminate.
Qed.

Lemma mapM_exc_forall {A B} (f : A -> except B) (P : B -> Prop) l ys :
  (forall x y, f x = inr y -> P y) ->
  mapM_exc f l = inr ys -> Forall P ys /\ length ys = length l.
Proof.
  intros Hf. revert ys. induction l as [|x l IH]; intros ys H; simpl in H.
  - injection H as <-. auto.
  - destruct (f x) as [e|y] eqn:Ex; cbn [bind_exc] in H; [discriminate|].
    destruct (mapM_exc f l) as [e|ys'] eqn:El; cbn [bind_exc] in H;
      [discriminate|].
    injection H as <-. destruct (IH ys' eq_refl) as [HF HL].
    split; [constructor; eauto | simpl; lia].
Qed.

Lemma split_on_nonempty (sep : N) (s : pystr) : split_on sep s <> [].
Proof.
  destruct s as [|c s]; simpl; [discriminate|].
  destruct (N.eqb c sep); [discriminate|].
  destruct (split_on sep s); discriminate.
Qed.

Lemma no_dot_slash_seg (w t : pystr) :
  seg_ok w -> no_dot_slash (w ++ t) = no_dot_slash t.
Proof.
  induction w as [|a w IH]; intros (Hne & Hsl & Hl); [congruence|].
  destruct w as [|a' w'].
  - simpl. destruct t as [|b t]; [reflexivity|].
    assert (N.eqb a c_dot = false) as ->; [|reflexivity].
    apply N.eqb_neq. intros ->. apply Hl. reflexivity.
  - change ((a :: a' :: w') ++ t) with (a :: a' :: (w' ++ t)).
    cbn [no_dot_slash].
    assert (N.eqb a' c_slash = false) as ->.
    { apply N.eqb_neq. intros ->. apply Hsl. simpl; auto. }
    rewrite andb_false_r. simpl negb. rewrite andb_true_l.
    apply IH. split; [discriminate|split].
    + intros Hin. apply Hsl. simpl. auto.
    + change (a :: a' :: w') with ([a] ++ (a' :: w')) in Hl.
      rewrite last_char_app in Hl by discriminate. exact Hl.
Qed.

Lemma join_nonempty (sep w : pystr) ws : w <> [] -> join sep (w :: ws) <> [].
Proof.
  intros Hw. destruct ws; simpl; [exact Hw|].
  destruct w; [congruence|discriminate].
Qed.

Lemma join_well_separated (parts : list pystr) :
  parts <> [] -> Forall seg_ok parts -> well_separated (join [c_slash] parts).
Proof.
  induction parts as [|w ws IH]; intros Hne HF; [congruence|].
  inversion HF as [|? ? Hw Hws]; subst.
  pose proof Hw as (Hwne & Hwsl & Hwl).
  assert (hd_error w <> Some c_slash) as Hhd.
  { destruct w as [|a w]; [congruence|]. simpl. intros H. injection H as ->.
    apply Hwsl. simpl; auto. }
  destruct ws as [|w2 ws].
  - simpl. split; [exact Hhd|split; [|split]].
    + rewrite <- (app_nil_r w). rewrite no_dot_slash_seg by assumption.
      reflexivity.
    + unfold last_char. destruct (rev w) as [|c r] eqn:E; [discriminate|].
      simpl. intros H. injection H as ->. apply Hwsl. apply in_rev.
      rewrite E. simpl; auto.
    + exact Hwl.
  - destruct (IH ltac:(discriminate) Hws) as (_ & Hn & Hl1 & Hl2).
    inversion Hws as [|? ? Hw2 _]; subst.
    pose proof (join_nonempty [c_slash] w2 ws ltac:(apply Hw2)) as HJ.
    change (join [c_slash] (w :: w2 :: ws))
      with (w ++ [c_slash] ++ join [c_slash] (w2 :: ws)).
    set (J := join [c_slash] (w2 :: ws)) in *.
    split; [|split; [|split]].
    + destruct w; [congruence|exact Hhd].
    + rewrite no_dot_slash_seg by assumption. simpl.
      destruct J; [congruence|]. exact Hn.
    + rewrite !last_char_app by (auto; discriminate). exact Hl1.
    + rewrite !last_char_app by (auto; discriminate). exact Hl2.
Qed.

Section CharMap.

Variable g : N -> N.
Hypothesis g_slash : forall c, g c = c_slash <-> c = c_slash.
Hypothesis g_dot : forall c, g c = c_dot <-> c = c_dot.

Lemma eqb_g_slash c : N.eqb (g c) c_slash = N.eqb c c_slash.
Proof.
  destruct (N.eqb c c_slash) eqn:E.
  - apply N.eqb_eq, g_slash, N.eqb_eq, E.
  - apply N.eqb_neq. intros H. apply (proj1 (g_slash c)) in H. apply N.eqb_neq in E.
    exact (E H).
Qed.

Lemma eqb_g_dot c : N.eqb (g c) c_dot = N.eqb c c_dot.
Proof.
  destruct (N.eqb c c_dot) eqn:E.
  - apply N.eqb_eq, g_dot, N.eqb_eq, E.
  - apply N.eqb_neq. intros H. apply (proj1 (g_dot c)) in H. apply N.eqb_neq in E.
    exact (E H).
Qed.

Lemma no_dot_slash_map (s : pystr) : no_dot_slash (map g s) = no_dot_slash s.
Proof.
  induction s as [|a s IH]; [reflexivity|].
  destruct s as [|b s]; [reflexivity|].
  change (map g (a :: b :: s)) with (g a :: map g (b :: s)).
  change (no_dot_slash (g a :: map g (b :: s)))
    with (negb (N.eqb (g a) c_dot && N.eqb (g b) c_slash)
          && no_dot_slash (map g (b :: s))).
  rewrite IH, eqb_g_dot, eqb_g_slash. reflexivity.
Qed.

Lemma well_separated_map (s : pystr) :
  well_separated s -> well_separated (map g s).
Proof.
  intros (Hhd & Hn & Hl1 & Hl2).
  assert (last_char (map g s) = option_map g (last_char s)) as Hl.
  { unfold last_char. rewrite <- map_rev. destruct (rev s); reflexivity. }
  split; [|split; [|split]].
  - destruct s as [|a s]; [discriminate|]. simpl in *. intros H.
    injection H as H. apply (proj1 (g_slash _)) in H. congruence.
  - rewrite no_dot_slash_map. exact Hn.
  - rewrite Hl. destruct (last_char s); simpl; [|discriminate].
    intros H. injection H as H. apply (proj1 (g_slash _)) in H. congruence.
  - rewrite Hl. destruct (last_char s); simpl; [|discriminate].
    intros H. injection H as H. apply (proj1 (g_dot _)) in H. congruence.
Qed.

End CharMap.

Lemma re_unsafe_d_keeps_separators :
  (forall c, (if re_unsafe_d c then c_under else c) = c_slash <-> c = c_slash)
  /\ (forall c, (if re_unsafe_d c then c_under else c) = c_dot <-> c = c_dot).
Proof.
  split; intros c; split; intros H.
  - destruct (re_unsafe_d c); [discriminate|exact H].
  - subst c. reflexivity.
  - destruct (re_unsafe_d c); [discriminate|exact H].
  - subst c. reflexivity.
Qed.

Lemma re_unsafe_f_no_slash (s : pystr) :
  ~ In c_slash (re_sub_class re_unsafe_f c_under s).
Proof.
  unfold re_sub_class. intros Hin. apply in_map_iff in Hin as [c [Hc _]].
  destruct (re_unsafe_f c) eqn:E; [discriminate|].
  subst c. discriminate.
Qed.

(** C9: whenever [safe_chars_only] returns (for any transliteration
    function and either value of [file]), its result passes
    [safe_filename]: every segment is non-empty and has its trailing
    periods stripped, and the character substitution never creates a '/'
    or a '.'. *)
Theorem safe_chars_only_safe (unidecode : pystr -> pystr) (text : pystr)
    (file : bool) (r : pystr) :
  text <> [] ->
  safe_chars_only unidecode text file = inr r -> safe_filename r = true.
Proof.
  intros _. unfold safe_chars_only.
  destruct (py_assert (nonempty text)); cbn [bind_exc]; [discriminate|].
  set (f := fun x => fat_safe (replace [c_slash] [c_under] (unidecode x))).
  destruct (mapM_exc f _) as [e|parts] eqn:Hm; cbn [bind_exc];
    [discriminate|].
  apply (mapM_exc_forall f seg_ok) in Hm as [HF HL].
  2: { intros x w Hx. apply fat_safe_ok in Hx as (Hne & Hl & Hin).
       split; [exact Hne|split; [|exact Hl]].
       intros Hs. apply Hin in Hs. apply replace_slash_no_slash in Hs.
       exact Hs. }
  assert (parts <> []) as Hpne.
  { intros ->. simpl in HL. symmetry in HL. apply length_zero_iff_nil in HL.
    revert HL. apply split_on_nonempty. }
  pose proof (join_well_separated parts Hpne HF) as HW.
  destruct (py_assert (nonempty (if file then _ else _))); cbn [bind_exc];
    [discriminate|].
  intros H. injection H as <-. destruct file.
  - apply safe_filename_no_slash, re_unsafe_f_no_slash.
  - apply safe_filename_well_separated. unfold re_sub_class.
    destruct re_unsafe_d_keeps_separators as [H1 H2].
    apply well_separated_map; assumption.
Qed.

Lemma safe_chars_only_safe_witness :
  safe_chars_only (fun s => s) (lit "A/B.../C") false = inr (lit "A/B/C") /\
  safe_filename (lit "A/B/C") = true.
Proof.
  split; [reflexivity|].
  apply (safe_chars_only_safe (fun s => s) (lit "A/B.../C") false).
  - discriminate.
  - reflexivity.
Defined.

Example ex_filter1 : filter_file (lit "a/b/song.flac") true = true. Proof. reflexivity. Qed.
Example ex_filter2 : filter_file (lit "a/cover.jpg") true = false. Proof. reflexivity. Qed.
Example ex_filter3 : filter_file (lit "a/cover.jpg") false = true. Proof. reflexivity. Qed.
Example ex_round1 : st_mtime (round_mtime {| st_atime := 0; st_mtime := 3 |}) = 4%Q. Proof. reflexivity. Qed.
Example ex_round2 : st_mtime (round_mtime {| st_atime := 0; st_mtime := 7#2 |}) = 4%Q. Proof. reflexivity. Qed.

(* ------------------------------------------------------------------ *)
(** ** filter_file *)

(** For a base name with a '.', the filter agrees with the description. *)
Lemma filter_file_dotted (name : pystr) (no_extra : bool) :
  in_chars (basename name) c_dot = true ->
  filter_file name no_extra = spec_filter_file name no_extra.
Proof.
  intros H. unfold filter_file, spec_filter_file, spec_extension.
  rewrite H. destruct (mem _ extensions); [reflexivity|].
  simpl. destruct (negb no_extra && mem (basename name) extra); reflexivity.
Qed.

(** C7 (code_bug): a file whose base name is literally [flac] has no
    extension, yet [name.split(".")[-1]] is the whole name, so the filter
    accepts it through the extension rule; the later code then rebuilds
    its source path as [Album/.flac]. *)
Theorem filter_file_accepts_dotless_flac :
  filter_file (lit "Album/flac") false = true /\
  spec_filter_file (lit "Album/flac") false = false /\
  spec_filter_file (lit "Album/flac") true = false /\
  filter_file (lit "Album/flac") true = true.
Proof. repeat split; reflexivity. Qed.

(* ------------------------------------------------------------------ *)
(** ** round_mtime *)

Lemma py_fmod2_zero (m : Q) :
  Qeq_bool (py_fmod2 m) 0 = true <-> exists k, (m == inject_Z (2 * k))%Q.
Proof.
  unfold py_fmod2. rewrite Qeq_bool_iff. split.
  - intros H. exists (Qfloor (m / 2)). rewrite inject_Z_mult.
    change (inject_Z 2) with 2%Q. lra.
  - intros [k Hk]. assert (Qfloor (m / 2) = k) as ->.
    { rewrite <- (Qfloor_Z k). apply Qfloor_comp. rewrite Hk, inject_Z_mult.
      field. }
    rewrite Hk, inject_Z_mult. change (inject_Z 2) with 2%Q. lra.
Qed.

(** C8 (amended): [round_mtime] leaves the access time alone, leaves a
    modification time that is an exact even number of seconds unchanged,
    and otherwise sets it to the least even integer not below it: an even
    integer in [m, m + 2).  It never rounds down. *)
Theorem round_mtime_rounds_up_to_even (a m : Q) :
  let r := round_mtime {| st_atime := a; st_mtime := m |} in
  st_atime r = a /\
  ((exists k, (m == inject_Z (2 * k))%Q) ->
     r = {| st_atime := a; st_mtime := m |}) /\
  (exists k, (st_mtime r == inject_Z (2 * k))%Q) /\
  (m <= st_mtime r)%Q /\ (st_mtime r < m + 2)%Q.
Proof.
  cbv zeta. unfold round_mtime. cbn [st_mtime st_atime].
  destruct (Qeq_bool (py_fmod2 m) 0) eqn:E; simpl negb; cbv iota;
    cbn [st_mtime st_atime].
  - split; [reflexivity|split; [reflexivity|split; [|lra]]].
    apply py_fmod2_zero. exact E.
  - split; [reflexivity|split].
    { intros Hk. apply py_fmod2_zero in Hk. congruence. }
    set (c := Qceiling m).
    pose proof (Qle_ceiling m) as H1. pose proof (Qceiling_lt m) as H2.
    fold c in H1, H2.
    assert (c <= (c + 1) / 2 * 2 /\ (c + 1) / 2 * 2 - 2 <= c - 1)%Z as [Z1 Z2]
      by (pose proof (Z.div_mod (c + 1) 2 ltac:(lia));
          pose proof (Z.mod_pos_bound (c + 1) 2 ltac:(lia)); split; lia).
    rewrite Zle_Qle in Z1, Z2.
    split; [exists ((c + 1) / 2)%Z; rewrite Z.mul_comm; reflexivity|].
    unfold Z.sub in Z2, H2. rewrite inject_Z_plus, inject_Z_opp in H2.
    rewrite !inject_Z_plus, !inject_Z_opp in Z2.
    change (inject_Z 1) with 1%Q in Z2, H2.
    change (inject_Z 2) with 2%Q in Z2. split; lra.
Qed.

(** C8 (counterexample): 4.5 s has an even whole-second part, yet it is
    moved to 6 s. *)
Lemma round_mtime_even_second_moved :
  Z.even (Qfloor (9 # 2)) = true /\
  st_mtime (round_mtime {| st_atime := 0; st_mtime := 9 # 2 |}) = 6%Q.
Proof. split; reflexivity. Qed.

Lemma round_mtime_rounds_up_to_even_witness :
  st_mtime (round_mtime {| st_atime := 0; st_mtime := 9 # 2 |}) = 6%Q /\
  (9 # 2 <= st_mtime (round_mtime {| st_atime := 0; st_mtime := 9 # 2 |}))%Q.
Proof.
  split; [reflexivity|].
  exact (proj1 (proj2 (proj2 (proj2 (round_mtime_rounds_up_to_even 0 (9 # 2)))))).
Defined.

Example ex_title :
  get_title (fun s => s)
    [(lit "DISCNUMBER", lit "1/2"); (lit "tracknumber", lit " 7 ");
     (lit "Title", lit "Intro/Outro...")] = inr (lit "01.07 Intro-Outro").
Proof. reflexivity. Qed.
Example ex_fmt : fmt02d 123 = lit "123" /\ fmt02d 0 = lit "00" /\ fmt02d (-3) = lit "-3".
Proof. repeat split; reflexivity. Qed.

(* ------------------------------------------------------------------ *)
(** ** get_title *)

Lemma py_int_nonempty (s : pystr) n : py_int s = Some n -> nonempty s = true.
Proof.
  destruct s; [discriminate|reflexivity].
Qed.

Lemma vc_get_values (vc : vcomment) key default :
  vc_get vc key default =
  match vc_values vc key with [] => default | vs => vs end.
Proof.
  unfold vc_get, vc_getitem. destruct (vc_values vc key); reflexivity.
Qed.

Lemma digits_of_nonempty fuel (n : Z) (acc : pystr) :
  acc <> [] -> digits_of fuel n acc <> [].
Proof.
  revert n acc. induction fuel as [|f IH]; intros n acc H; simpl; [exact H|].
  destruct (n <? 10)%Z; [discriminate|]. apply IH. discriminate.
Qed.

Lemma fmt02d_nonempty (n : Z) : nonempty (fmt02d n) = true.
Proof.
  unfold fmt02d. destruct (n <? 0)%Z; [reflexivity|].
  destruct (length (dec n) <? 2)%nat; [reflexivity|].
  unfold dec. simpl. destruct (n <? 10)%Z; [reflexivity|].
  destruct (digits_of _ _ _) eqn:E; [|reflexivity].
  exfalso. revert E. apply digits_of_nonempty. discriminate.
Qed.

Lemma nonempty_app_l (x y : pystr) :
  nonempty x = true -> nonempty (x ++ y) = true.
Proof. destruct x; [discriminate|reflexivity]. Qed.

(** C6: for disc and track tags that are absent or whose first value,
    before any '/', is a literal that [int()] accepts (Unicode digits and
    whitespace included), [get_title] gives the two-digit disc number and '.', the
    two-digit track number, a space when either was written, then the
    TITLE tag with '/' replaced by '-' and normalised by
    [safe_chars_only]; without a TITLE tag it raises [KeyError]. *)
Theorem get_title_format (unidecode : pystr -> pystr) (vc : vcomment)
    (disc track : option Z) :
  number_tag vc (lit "DISCNUMBER") disc ->
  number_tag vc (lit "TRACKNUMBER") track ->
  get_title unidecode vc =
  match vc_values vc (lit "TITLE") with
  | [] => inl KeyError
  | title :: _ =>
      let! t := safe_chars_only unidecode (replace (lit "/") (lit "-") title)
                  true in
      inr (spec_title disc track t)
  end.
Proof.
  intros Hd Ht. unfold get_title. rewrite !vc_get_values.
  destruct disc as [d|];
    [destruct Hd as (v & vs & Hv & Hn); rewrite Hv | rewrite Hd];
  (destruct track as [t|];
    [destruct Ht as (w & ws & Hw & Htn); rewrite Hw | rewrite Ht]);
  cbn [bind_exc py_index0 hd split_on];
  try rewrite (py_int_nonempty _ _ Hn), Hn;
  try rewrite (py_int_nonempty _ _ Htn), Htn;
  cbn [bind_exc nonempty];
  unfold vc_getitem; destruct (vc_values vc (lit "TITLE")) as [|title rest];
  cbn [bind_exc py_index0]; try reflexivity;
  destruct (safe_chars_only _ _ _) as [e|ti]; cbn [bind_exc]; try reflexivity;
  unfold spec_title; f_equal.
  - rewrite nonempty_app_l by (apply nonempty_app_l, fmt02d_nonempty).
    rewrite <- !app_assoc. reflexivity.
  - rewrite app_nil_r, nonempty_app_l by apply fmt02d_nonempty.
    rewrite <- !app_assoc. reflexivity.
  - cbn [app]. rewrite fmt02d_nonempty, <- app_assoc. reflexivity.
Qed.

Lemma get_title_format_witness :
  get_title (fun s => s)
    [(lit "DISCNUMBER", lit "1/2"); (lit "tracknumber", lit " 7 ");
     (lit "Title", lit "Intro/Outro...")] =
  inr (spec_title (Some 1%Z) (Some 7%Z) (lit "Intro-Outro")) /\
  get_title (fun s => s)
    [(lit "TRACKNUMBER", [1635]); (lit "TITLE", lit "a")] =
  inr (spec_title None (Some 3%Z) (lit "a")).
Proof.
  split.
  - rewrite (get_title_format (fun s => s) _ (Some 1%Z) (Some 7%Z)).
    + reflexivity.
    + exists (lit "1/2"), []. split; reflexivity.
    + exists (lit " 7 "), []. split; reflexivity.
  - rewrite (get_title_format (fun s => s) _ None (Some 3%Z)).
    + reflexivity.
    + reflexivity.
    + exists [1635], []. split; reflexivity.
Defined.

(* ------------------------------------------------------------------ *)
(** ** sync_flac *)

(** C4 (amended): tag synchronisation for ogg leaves the destination
    with exactly the source mapping: it is rewritten with it when the two
    differ, and otherwise already equals it.  For mp3 the source mapping
    is first restricted to the keys for which [dst_m[tag]] does not raise
    [EasyID3KeyError] on the destination; the destination is rewritten
    exactly when that restriction and the destination mapping differ with
    the four replaygain keys left out.  The rewrite assigns every item of
    the restriction through EasyID3; otherwise the destination is left as
    it is. *)
Theorem sync_flac_tags_result (id3_write : tagmap -> tagmap -> except tagmap)
    (format : pystr) (src dst : tagmap) (changed : bool) (res : tagmap) :
  sync_flac_tags id3_write format src dst = inr (changed, res) ->
  (format = lit "ogg" /\ res = src /\ (changed = true <-> src <> dst)) \/
  (format = lit "mp3" /\
   let src' := filter (fun kv => easyid3_key_error dst kv.1 = false) src in
   (changed = true <->
    del_keys replaygain_keys src' <> del_keys replaygain_keys dst) /\
   (changed = true -> id3_write dst src' = inr res) /\
   (changed = false -> res = dst)).
Proof.
  intros H. unfold sync_flac_tags in H. cbv zeta in H.
  destruct (bool_decide (format = lit "ogg")) eqn:Eo.
  - apply bool_decide_eq_true in Eo. subst format. left.
    rewrite (bool_decide_eq_false_2 (lit "ogg" = lit "mp3")) in H
      by discriminate.
    cbn [bind_exc] in H.
    destruct (bool_decide (src <> dst)) eqn:Ed.
    + injection H as <- <-. apply bool_decide_eq_true in Ed.
      split; [reflexivity|split; [reflexivity|tauto]].
    + injection H as <- <-. apply bool_decide_eq_false in Ed.
      apply dec_stable in Ed. subst dst.
      split; [reflexivity|split; [reflexivity|]].
      split; [discriminate|tauto].
  - destruct (bool_decide (format = lit "mp3")) eqn:Em;
      cbn [bind_exc] in H; [|discriminate].
    apply bool_decide_eq_true in Em. right. split; [exact Em|].
    set (s' := filter _ src) in *.
    destruct (bool_decide (del_keys replaygain_keys s'
                           <> del_keys replaygain_keys dst)) eqn:Ed.
    + apply bool_decide_eq_true in Ed.
      destruct (id3_write dst s') as [e|r] eqn:Ew; cbn [bind_exc] in H;
        [discriminate|].
      injection H as <- <-.
      split; [tauto|split; [intros _; exact Ew|discriminate]].
    + injection H as <- <-. apply bool_decide_eq_false in Ed.
      split; [split; [discriminate|tauto]|].
      split; [discriminate|reflexivity].
Qed.

(** On the source mapping [flac_src_tags] against a fresh mp3 (no tags),
    with a writer that stores the items as given: the replaygain key and
    the unregistered key are not copied; against a destination that has
    an RVA2 frame [track], the replaygain key is kept. *)
Lemma sync_flac_tags_result_witness :
  sync_flac_tags (fun _ items => inr items) (lit "mp3") flac_src_tags ∅ =
  inr (true, {[lit "title" := [lit "Song"]]}) /\
  filter (fun kv => easyid3_key_error ∅ kv.1 = false) flac_src_tags =
  {[lit "title" := [lit "Song"]]} /\
  filter (fun kv => easyid3_key_error
                      {[lit "replaygain_track_gain" := [lit "+0.000000 dB"]]}
                      kv.1 = false) flac_src_tags =
  <[lit "title" := [lit "Song"]]>
    {[lit "replaygain_track_gain" := [lit "-6.0 dB"]]}.
Proof.
  assert (E : sync_flac_tags (fun _ items => inr items) (lit "mp3")
                flac_src_tags ∅ =
              inr (true, {[lit "title" := [lit "Song"]]}))
    by (vm_compute; reflexivity).
  split; [exact E|].
  split; [|vm_compute; reflexivity].
  destruct (sync_flac_tags_result _ _ _ _ _ _ E) as [[Ho _]|[_ [_ [Hw _]]]];
    [discriminate|].
  specialize (Hw eq_refl).
  exact (f_equal (fun e : except tagmap =>
                   match e with inr x => x | inl _ => ∅ end) Hw).
Defined.

(** C4 (counterexample): the mp3 source key [comment], which EasyID3
    does not register and which is not a declared exclusion, is left out
    of the comparison: a destination holding only the title is reported
    unchanged and keeps no comment, although the source has one. *)
Lemma sync_flac_tags_drops_comment :
  sync_flac_tags (fun _ items => inr items) (lit "mp3")
    (vc_dict [(lit "TITLE", lit "Song"); (lit "COMMENT", lit "x")])
    {[lit "title" := [lit "Song"]]} =
  inr (false, {[lit "title" := [lit "Song"]]}) /\
  vc_dict [(lit "TITLE", lit "Song"); (lit "COMMENT", lit "x")]
    !! lit "comment" = Some [lit "x"] /\
  ({[lit "title" := [lit "Song"]]} : tagmap) !! lit "comment" = None /\
  lit "comment" ∉ declared_exclusions (lit "mp3").
Proof.
  split; [vm_compute; reflexivity|].
  split; [vm_compute; reflexivity|].
  split; [vm_compute; reflexivity|].
  apply (proj1 (bool_decide_eq_true _)). vm_compute. reflexivity.
Qed.

Example ex_dirname : dirname (lit "/a/b") = lit "/a" /\ dirname (lit "/a") = lit "/"
  /\ dirname (lit "/") = lit "/" /\ dirname (lit "a") = [] /\ dirname (lit "a//b") = lit "a".
Proof. repeat split; reflexivity. Qed.

(* ------------------------------------------------------------------ *)
(** ** _has_access *)

(** The membership test [path in access] looks for a string key, but
    every key the function stores is a [(path, target)] pair. *)
Lemma dict_contains_str_pairs (d : pydict) (s : pystr) :
  Forall (fun kv => exists p b, kv.1 = KPair p b) d ->
  dict_contains d (KStr s) = false.
Proof.
  induction 1 as [|[k v] d [p [b Hk]] _ IH]; [reflexivity|].
  simpl in *. subst k. exact IH.
Qed.

(** C5 (code_bug): asking twice for [(/music/a.flac, False)] with a user
    set, the first query stores its answer under that pair, and the second
    query still walks [/], [/music] and the file again with [os.lstat]
    instead of answering from the memo. *)
Theorem has_access_memo_not_consulted :
  let u := Some (1000, [100]) in
  let s0 := {| memo := []; lstat_log := [] |} in
  let '(s1, r1) :=
    has_access u (lit "/music") music_fs 10 (lit "/music/a.flac") false s0 in
  let '(s2, r2) :=
    has_access u (lit "/music") music_fs 10 (lit "/music/a.flac") false s1 in
  r1 = inr true /\ r2 = inr true /\
  dict_getitem (memo s1) (KPair (lit "/music/a.flac") false) = inr true /\
  lstat_log s1 = [lit "/"; lit "/music"; lit "/music/a.flac"] /\
  lstat_log s2 = lstat_log s1 ++ [lit "/"; lit "/music"; lit "/music/a.flac"].
Proof. vm_compute. repeat split; reflexivity. Qed.

(** ** C1: the refresh unlinks *)

(** C1 (code bug). Every mutation of the destination tree is meant to
    follow a passed safe-name check of its name. The two refresh loops of
    [sync_paths] unlink with no check: on [refresh_world] the run
    completes, and the first two effects are unlinks of [a.ogg] and
    [b.mp3] before any check, so [mutations_checked] fails. The checks
    that come later belong to the copy and transcode jobs. *)
Theorem sync_paths_refresh_unlink_unchecked :
  sync_paths (fun x => x) cfg_ogg refresh_world [] =
    ([EvUnlink (lit "a.ogg"); EvUnlink (lit "b.mp3");
      EvCheck (lit "b.mp3") true; EvCheck (lit "b.mp3") true;
      EvCopy (lit "b.mp3");
      EvCheck (lit "a") true; EvCheck (lit "a") true;
      EvTranscode (lit "a") (lit "ogg");
      EvCheck (lit "a") true; EvCheck (lit "a") true;
      EvRetag (lit "a") (lit "ogg")], inr tt) /\
  mutations_checked [] (fst (sync_paths (fun x => x) cfg_ogg refresh_world []))
    = false.
Proof. split; vm_compute; reflexivity. Qed.

(** ** C2: collisions of logical names *)

(** C2 (counterexample). Under the Android policy [a*b.mp3] and
    [a_b.mp3] both become [a_b.mp3]; the run completes with no error, the
    map keeps only the later file, and only it is copied. *)
Lemma sync_paths_collision_silent :
  android_safe_chars_only (lit "a*b.mp3") = inr (lit "a_b.mp3") /\
  android_safe_chars_only (lit "a_b.mp3") = inr (lit "a_b.mp3") /\
  sync_paths (fun x => x) cfg_android_ogg collide_world [] =
    ([EvCheck (lit "a_b.mp3") true; EvCheck (lit "a_b.mp3") true;
      EvCopy (lit "a_b.mp3")], inr tt) /\
  match build_src_sets (fun x => x) cfg_android_ogg collide_world
          (w_src_files collide_world) empty_src_sets with
  | inr ss => not_flac_map ss = {[lit "a_b.mp3" := lit "a_b.mp3"]}
  | inl _ => False
  end.
Proof. vm_compute; repeat split; reflexivity. Qed.

Section LastWins.

Variables (unidecode : pystr -> pystr) (cfg : config) (w : world).

Lemma physical_names_cons b m p l :
  physical_names unidecode cfg w b m (p :: l) =
    match classify unidecode cfg w p with
    | inr (b', m', phys) =>
        if bool_decide (b' = b /\ m' = m)
        then phys :: physical_names unidecode cfg w b m l
        else physical_names unidecode cfg w b m l
    | inl _ => physical_names unidecode cfg w b m l
    end.
Proof.
  unfold physical_names at 1; cbn [omap list_omap].
  destruct (classify unidecode cfg w p) as [|[[b' m'] phys]]; [reflexivity|].
  case_bool_decide; reflexivity.
Qed.

Lemma build_src_sets_acc l ss :
  forallb (classifies unidecode cfg w) l = true ->
  exists ss', build_src_sets unidecode cfg w l ss = inr ss' /\
    forall m,
      flac_map ss' !! m =
        match last (physical_names unidecode cfg w true m l) with
        | Some p => Some p | None => flac_map ss !! m end /\
      not_flac_map ss' !! m =
        match last (physical_names unidecode cfg w false m l) with
        | Some p => Some p | None => not_flac_map ss !! m end.
Proof.
  revert ss; induction l as [|p l IH]; intros ss Hall;
    cbn [build_src_sets forallb] in *.
  - exists ss; split; [reflexivity|]. intros m; split; reflexivity.
  - apply andb_prop in Hall as [Hp Hall].
    unfold classifies in Hp.
    destruct (classify unidecode cfg w p) as [e|[[b m'] phys]] eqn:Hc;
      [discriminate|].
    destruct (IH (match b with
      | true => {| flac_files := {[m']} ∪ flac_files ss;
                   flac_map := <[m' := phys]> (flac_map ss);
                   as_format_files :=
                     {[dot_format m' (format cfg)]} ∪ as_format_files ss;
                   not_flac_files := not_flac_files ss;
                   not_flac_map := not_flac_map ss |}
      | false => {| flac_files := flac_files ss; flac_map := flac_map ss;
                    as_format_files := {[m']} ∪ as_format_files ss;
                    not_flac_files := {[m']} ∪ not_flac_files ss;
                    not_flac_map := <[m' := phys]> (not_flac_map ss) |}
      end) Hall) as (ss' & Hb & Hm).
    exists ss'; split.
    + unfold add_src_file. rewrite Hc. destruct b; exact Hb.
    + intros m. destruct (Hm m) as [Hf Hn].
      rewrite Hf, Hn, !physical_names_cons, Hc.
      destruct (last (physical_names unidecode cfg w true m l)) eqn:E1;
        destruct (last (physical_names unidecode cfg w false m l)) eqn:E2;
        destruct b; destruct (decide (m' = m)) as [->|Hne];
        repeat match goal with
        | |- context [bool_decide ?P] =>
            first [ rewrite (bool_decide_true P) by (split; congruence)
                  | rewrite (bool_decide_false P) by (intros [? ?]; congruence) ]
        end;
        rewrite ?last_cons, ?E1, ?E2; cbn [flac_map not_flac_map];
        rewrite ?lookup_insert_eq, ?lookup_insert_ne by exact Hne;
        split; reflexivity.
Qed.

End LastWins.

(** C2 (amended). Collisions are not detected. When every source name
    normalises without error, building the logical-to-physical maps
    succeeds, and each logical name maps to the physical name of the last
    file, in iteration order, that normalises to it: a colliding earlier
    file is overwritten in the map, never reported. *)
Theorem build_src_sets_last_wins unidecode cfg w :
  forallb (classifies unidecode cfg w) (w_src_files w) = true ->
  exists ss,
    build_src_sets unidecode cfg w (w_src_files w) empty_src_sets = inr ss /\
    forall m,
      flac_map ss !! m =
        last (physical_names unidecode cfg w true m (w_src_files w)) /\
      not_flac_map ss !! m =
        last (physical_names unidecode cfg w false m (w_src_files w)).
Proof.
  intros Hall.
  destruct (build_src_sets_acc unidecode cfg w (w_src_files w)
              empty_src_sets Hall) as (ss & Hb & Hm).
  exists ss; split; [exact Hb|].
  intros m; destruct (Hm m) as [Hf Hn]; rewrite Hf, Hn.
  destruct (last (physical_names unidecode cfg w true m (w_src_files w)));
    destruct (last (physical_names unidecode cfg w false m (w_src_files w)));
    split; try reflexivity; apply lookup_empty.
Qed.

Lemma build_src_sets_last_wins_witness :
  forallb (classifies (fun x => x) cfg_android_ogg collide_world)
    (w_src_files collide_world) = true /\
  exists ss,
    build_src_sets (fun x => x) cfg_android_ogg collide_world
      (w_src_files collide_world) empty_src_sets = inr ss /\
    forall m,
      flac_map ss !! m =
        last (physical_names (fun x => x) cfg_android_ogg collide_world
                true m (w_src_files collide_world)) /\
      not_flac_map ss !! m =
        last (physical_names (fun x => x) cfg_android_ogg collide_world
                false m (w_src_files collide_world)).
Proof.
  split; [vm_compute; reflexivity|].
  apply build_src_sets_last_wins. vm_compute. reflexivity.
Defined.

(** ** C3: the staleness rule *)

(** C3 (counterexample). In [shadow_world] the source [a.ogg] is older
    than the destination [a.ogg], yet the refresh of [a.flac] (whose
    output is also [a.ogg]) unlinks it and removes it from [dst_files], so
    [a.ogg] is copied again as a fresh create. *)
Lemma sync_paths_older_copy_refreshed :
  Qlt (w_src_mtime shadow_world (lit "a.ogg"))
      (w_dst_mtime shadow_world (lit "a.ogg")) /\
  sync_paths (fun x => x) cfg_ogg shadow_world [] =
    ([EvUnlink (lit "a.ogg");
      EvCheck (lit "a.ogg") true; EvCheck (lit "a.ogg") true;
      EvCopy (lit "a.ogg");
      EvCheck (lit "a") true; EvCheck (lit "a") true;
      EvTranscode (lit "a") (lit "ogg");
      EvCheck (lit "a") true; EvCheck (lit "a") true;
      EvRetag (lit "a") (lit "ogg")], inr tt).
Proof. split; vm_compute; reflexivity. Qed.

Lemma st_bind_inr {S A B} (m : St S A) (k : A -> St S B) s s' b :
  st_bind m k s = (s', inr b) ->
  exists s1 a, m s = (s1, inr a) /\ k a s1 = (s', inr b).
Proof.
  unfold st_bind. destruct (m s) as [s1 [e|a]]; [discriminate|].
  intros H; exists s1, a; split; [reflexivity|exact H].
Qed.

Lemma dot_format_inj n1 n2 f : dot_format n1 f = dot_format n2 f -> n1 = n2.
Proof. unfold dot_format. apply app_inv_tail. Qed.

Section Staleness.

Variables (cfg : config) (w : world).

Lemma refresh_flac_spec fmap names dff df tr tr' dff' df' :
  refresh_flac cfg w fmap names dff df tr = (tr', inr (dff', df')) ->
  (forall x, x ∈ dff' <->
     x ∈ dff /\ ~ (x ∈ names /\ flac_stale cfg w fmap x = true)) /\
  (forall y, y ∈ df' <->
     y ∈ df /\ forall x, x ∈ names -> flac_stale cfg w fmap x = true ->
                         y <> dot_format x (format cfg)) /\
  (forall e, e ∈ tr' <->
     e ∈ tr \/ exists x, x ∈ names /\ flac_stale cfg w fmap x = true /\
                         e = EvUnlink (dot_format x (format cfg))).
Proof.
  revert dff df tr; induction names as [|x rest IH]; intros dff df tr H.
  - cbv [refresh_flac st_ret] in H. inversion H; subst.
    repeat split; intros; set_solver.
  - cbn [refresh_flac] in H. unfold st_bind, m_lift, dict_lookup in H.
    destruct (fmap !! x) as [phys|] eqn:Hx; [|discriminate].
    destruct (Qle_bool _ _) eqn:Hq.
    + unfold emit, set_remove in H.
      case_bool_decide as Hin1; [|discriminate].
      case_bool_decide as Hin2; [|discriminate].
      assert (Hs : flac_stale cfg w fmap x = true)
        by (unfold flac_stale; rewrite Hx; exact Hq).
      destruct (IH _ _ _ H) as (H1 & H2 & H3).
      split; [|split]; intros z.
      * rewrite H1. destruct (decide (z = x)); subst; set_solver.
      * rewrite H2, elem_of_difference, elem_of_singleton. split.
        -- intros [[Ha Hb] Hc]; split; [exact Ha|].
           intros x0 Hx0 Hs0. apply elem_of_cons in Hx0 as [-> | Hx0];
             [exact Hb|exact (Hc x0 Hx0 Hs0)].
        -- intros [Ha Hc]; split; [split; [exact Ha|]|].
           ++ apply Hc; [set_solver|exact Hs].
           ++ intros x0 Hx0 Hs0; apply Hc; [set_solver|exact Hs0].
      * rewrite H3, elem_of_app, list_elem_of_singleton. split.
        -- intros [[Ha | ->]|(x0 & Hx0 & Hs0 & ->)].
           ++ left; exact Ha.
           ++ right; exists x; split; [set_solver|auto].
           ++ right; exists x0; split; [set_solver|auto].
        -- intros [Ha|(x0 & Hx0 & Hs0 & ->)]; [left; left; exact Ha|].
           apply elem_of_cons in Hx0 as [-> | Hx0]; [left; right; reflexivity|].
           right; exists x0; auto.
    + assert (Hs : flac_stale cfg w fmap x = false)
        by (unfold flac_stale; rewrite Hx; exact Hq).
      destruct (IH _ _ _ H) as (H1 & H2 & H3).
      split; [|split]; intros z.
      * rewrite H1. split; intros [Ha Hb]; split; try exact Ha;
          intros [Hc Hd]; apply Hb; split; try exact Hd.
        -- apply elem_of_cons in Hc as [->|Hc]; [congruence|exact Hc].
        -- set_solver.
      * rewrite H2. split; intros [Ha Hb]; split; try exact Ha;
          intros x0 Hx0 Hs0.
        -- apply elem_of_cons in Hx0 as [-> | Hx0]; [congruence|].
           exact (Hb x0 Hx0 Hs0).
        -- apply Hb; [set_solver|exact Hs0].
      * rewrite H3. split; intros [Ha|(x0 & Hx0 & Hs0 & He)]; auto.
        -- right; exists x0; split; [set_solver|auto].
        -- apply elem_of_cons in Hx0 as [-> | Hx0]; [congruence|].
           right; exists x0; auto.
Qed.

Lemma refresh_other_spec nmap names df tr tr' df' :
  refresh_other w nmap names df tr = (tr', inr df') ->
  (forall y, y ∈ df' <->
     y ∈ df /\ ~ (y ∈ names /\ other_stale w nmap y = true)) /\
  (forall e, e ∈ tr' <->
     e ∈ tr \/ exists x, x ∈ names /\ other_stale w nmap x = true /\
                         e = EvUnlink x).
Proof.
  revert df tr; induction names as [|x rest IH]; intros df tr H.
  - cbv [refresh_other st_ret] in H. inversion H; subst.
    split; intros; set_solver.
  - cbn [refresh_other] in H. unfold st_bind, m_lift, dict_lookup in H.
    destruct (nmap !! x) as [phys|] eqn:Hx; [|discriminate].
    destruct (Qle_bool _ _) eqn:Hq.
    + unfold emit, set_remove in H.
      case_bool_decide as Hin1; [|discriminate].
      assert (Hs : other_stale w nmap x = true)
        by (unfold other_stale; rewrite Hx; exact Hq).
      destruct (IH _ _ H) as (H1 & H3).
      split; intros z.
      * rewrite H1. destruct (decide (z = x)); subst; set_solver.
      * rewrite H3, elem_of_app, list_elem_of_singleton. split.
        -- intros [[Ha | ->]|(x0 & Hx0 & Hs0 & ->)].
           ++ left; exact Ha.
           ++ right; exists x; split; [set_solver|auto].
           ++ right; exists x0; split; [set_solver|auto].
        -- intros [Ha|(x0 & Hx0 & Hs0 & ->)]; [left; left; exact Ha|].
           apply elem_of_cons in Hx0 as [-> | Hx0]; [left; right; reflexivity|].
           right; exists x0; auto.
    + assert (Hs : other_stale w nmap x = false)
        by (unfold other_stale; rewrite Hx; exact Hq).
      destruct (IH _ _ H) as (H1 & H3).
      split; intros z.
      * rewrite H1. split; intros [Ha Hb]; split; try exact Ha;
          intros [Hc Hd]; apply Hb; split; try exact Hd.
        -- apply elem_of_cons in Hc as [-> | Hc]; [congruence|exact Hc].
        -- set_solver.
      * rewrite H3. split; intros [Ha|(x0 & Hx0 & Hs0 & He)]; auto.
        -- right; exists x0; split; [set_solver|auto].
        -- apply elem_of_cons in Hx0 as [-> | Hx0]; [congruence|].
           right; exists x0; auto.
Qed.

End Staleness.

Lemma m_iter_events {A} (P : A -> event -> Prop) (f : A -> M unit) l tr tr' :
  (forall x tr0 tr1, f x tr0 = (tr1, inr tt) ->
     forall e, e ∈ tr1 -> e ∈ tr0 \/ P x e) ->
  m_iter f l tr = (tr', inr tt) ->
  forall e, e ∈ tr' -> e ∈ tr \/ exists x, x ∈ l /\ P x e.
Proof.
  intros Hf; revert tr; induction l as [|x l IH]; intros tr H e He.
  - cbv [m_iter st_ret] in H. inversion H; subst. left; exact He.
  - cbn [m_iter] in H. apply st_bind_inr in H as (tr1 & [] & H1 & H2).
    destruct (IH _ H2 e He) as [He1|(x0 & Hx0 & HP)].
    + destruct (Hf _ _ _ H1 e He1) as [He0|HP]; [left; exact He0|].
      right; exists x; split; [set_solver|exact HP].
    + right; exists x0; split; [set_solver|exact HP].
Qed.

Lemma checked_step_events name ev tr0 tr1 :
  (let* _ := assert_safe name in emit ev) tr0 = (tr1, inr tt) ->
  forall e, e ∈ tr1 -> e ∈ tr0 \/ e = ev \/ exists b, e = EvCheck name b.
Proof.
  unfold st_bind, assert_safe, emit, m_lift, py_assert.
  destruct (safe_filename name); cbn; intros H; inversion H; subst;
    intros e He; rewrite !elem_of_app, !list_elem_of_singleton in He; naive_solver.
Qed.



Lemma checked_loop (g : pystr -> event) l tr tr' :
  m_iter (fun name => let* _ := assert_safe name in emit (g name)) l tr
    = (tr', inr tt) ->
  (forall e, e ∈ tr -> e ∈ tr') /\
  (forall e, e ∈ tr' -> e ∈ tr \/
     exists x, x ∈ l /\ (e = g x \/ exists b, e = EvCheck x b)).
Proof.
  intros H; split.
  - revert tr H; induction l as [|x l IH]; intros tr H e He.
    + cbv [m_iter st_ret] in H. inversion H; subst; exact He.
    + cbn [m_iter] in H. apply st_bind_inr in H as (tr1 & [] & H1 & H2).
      apply (IH _ H2).
      revert H1. unfold st_bind, assert_safe, emit, m_lift, py_assert.
      destruct (safe_filename x); cbn; intros H1; inversion H1; subst.
      set_solver.
  - apply (m_iter_events (fun x e => e = g x \/ exists b, e = EvCheck x b)
             (fun name => let* _ := assert_safe name in emit (g name))
             l tr tr'); [|exact H].
    intros x tr0 tr1 H1 e He.
    destruct (checked_step_events _ _ _ _ H1 e He) as [?|[?|?]]; auto.
Qed.

Lemma emit_loop (g : pystr -> event) l tr tr' :
  m_iter (fun name => emit (g name)) l tr = (tr', inr tt) ->
  (forall e, e ∈ tr -> e ∈ tr') /\
  (forall e, e ∈ tr' -> e ∈ tr \/ exists x, x ∈ l /\ e = g x).
Proof.
  intros H; split.
  - revert tr H; induction l as [|x l IH]; intros tr H e He.
    + cbv [m_iter st_ret] in H. inversion H; subst; exact He.
    + cbn [m_iter] in H. apply st_bind_inr in H as (tr1 & [] & H1 & H2).
      apply (IH _ H2). unfold emit in H1. inversion H1; subst. set_solver.
  - apply (m_iter_events (fun x e => e = g x) (fun name => emit (g name))
             l tr tr'); [|exact H].
    intros x tr0 tr1 H1 e He. unfold emit in H1. inversion H1; subst.
    rewrite elem_of_app, list_elem_of_singleton in He. exact He.
Qed.

Lemma build_src_sets_inv unidecode cfg w l ss ss' :
  build_src_sets unidecode cfg w l ss = inr ss' ->
  (forall n, n ∈ flac_files ss <-> is_Some (flac_map ss !! n)) ->
  (forall m, m ∈ not_flac_files ss <-> is_Some (not_flac_map ss !! m)) ->
  (forall y, y ∈ as_format_files ss <->
     (exists n, n ∈ flac_files ss /\ y = dot_format n (format cfg)) \/
     y ∈ not_flac_files ss) ->
  (forall n, n ∈ flac_files ss' <-> is_Some (flac_map ss' !! n)) /\
  (forall m, m ∈ not_flac_files ss' <-> is_Some (not_flac_map ss' !! m)) /\
  (forall y, y ∈ as_format_files ss' <->
     (exists n, n ∈ flac_files ss' /\ y = dot_format n (format cfg)) \/
     y ∈ not_flac_files ss').
Proof.
  revert ss; induction l as [|p l IH]; intros ss Hb I1 I2 I3;
    cbn [build_src_sets] in Hb.
  - inversion Hb; subst; auto.
  - unfold bind_exc, add_src_file in Hb.
    destruct (classify unidecode cfg w p) as [e|[[b m'] phys]];
      [discriminate|].
    destruct b; cbn in Hb; apply (IH _ Hb); cbn; intros z;
      rewrite ?lookup_insert_is_Some.
    + rewrite elem_of_union, elem_of_singleton, I1.
      destruct (decide (z = m')); naive_solver.
    + apply I2.
    + rewrite elem_of_union, elem_of_singleton, I3.
      split; [intros [->|[(n & Hn & ->)|Hz]]|intros [(n & Hn & ->)|Hz]].
      * left; exists m'; set_solver.
      * left; exists n; set_solver.
      * right; exact Hz.
      * apply elem_of_union in Hn as [Hn|Hn];
          [left; apply elem_of_singleton in Hn; subst; reflexivity|].
        right; left; exists n; auto.
      * right; right; exact Hz.
    + apply I1.
    + rewrite elem_of_union, elem_of_singleton, I2.
      destruct (decide (z = m')); naive_solver.
    + rewrite !elem_of_union, !elem_of_singleton, I3. naive_solver.
Qed.

(** C3 (amended). The staleness rule holds for the files whose names do
    not collide: when no non-lossless logical name equals a lossless
    logical name followed by a dot and the format. For a lossless file
    whose [name.format] exists in the destination, source mtime at least
    the destination's means [name.format] is unlinked and [name] is
    transcoded again, and a strictly older source means no unlink of it
    and only a tag sync. For another file present on both sides, a source
    at least as new means unlink and copy again, and a strictly older
    source means neither. The jobs run after [reconcile] do not unlink. *)
Theorem reconcile_staleness_rule unidecode cfg w tr ss dff df :
  reconcile unidecode cfg w [] = (tr, inr (ss, dff, df)) ->
  (forall n, n ∈ flac_files ss ->
     dot_format n (format cfg) ∉ not_flac_files ss) ->
  (forall n phys,
     flac_map ss !! n = Some phys ->
     n ∈ dst_format_of cfg (w_dst_files w) ->
     (Qle (w_dst_mtime w (dot_format n (format cfg)))
          (w_src_mtime w (phys ++ lit ".flac")) ->
        EvUnlink (dot_format n (format cfg)) ∈ tr /\
        n ∈ transcode_jobs ss dff) /\
     (Qlt (w_src_mtime w (phys ++ lit ".flac"))
          (w_dst_mtime w (dot_format n (format cfg))) ->
        (EvUnlink (dot_format n (format cfg)) ∉ tr) /\
        (n ∉ transcode_jobs ss dff) /\ n ∈ tagsync_jobs ss dff)) /\
  (forall m phys,
     not_flac_map ss !! m = Some phys ->
     m ∈ w_dst_files w ->
     (Qle (w_dst_mtime w m) (w_src_mtime w phys) ->
        EvUnlink m ∈ tr /\ m ∈ copy_jobs ss df) /\
     (Qlt (w_src_mtime w phys) (w_dst_mtime w m) ->
        (EvUnlink m ∉ tr) /\ (m ∉ copy_jobs ss df))).
Proof.
  intros H Hnc. unfold reconcile in H.
  apply st_bind_inr in H as (tr1 & ss1 & Hb & H).
  unfold m_lift in Hb. injection Hb as <- Hbuild.
  apply st_bind_inr in H as (tr2 & [dff1 df1] & Hrf & H).
  apply st_bind_inr in H as (tr3 & df2 & Hro & H).
  apply st_bind_inr in H as (tr4 & [] & Horph & H).
  apply st_bind_inr in H as (tr5 & [] & Hrm & H).
  apply st_bind_inr in H as (tr6 & [] & Hmk & H).
  apply st_bind_inr in H as (tr7 & [] & Hfat & H).
  cbv [st_ret] in H. inversion H; subst tr7 ss1 dff1 df2. clear H.
  destruct (build_src_sets_inv unidecode cfg w _ _ _ Hbuild) as (I1 & I2 & I3);
    [intros z; cbn; rewrite lookup_empty; split;
       [set_solver|intros [? ?]; discriminate]
    |intros z; cbn; rewrite lookup_empty; split;
       [set_solver|intros [? ?]; discriminate]
    |intros z; cbn; set_solver|].
  destruct (refresh_flac_spec cfg w _ _ _ _ _ _ _ _ Hrf) as (F1 & F2 & F3).
  destruct (refresh_other_spec w _ _ _ _ _ _ Hro) as (O1 & O3).
  destruct (checked_loop EvUnlink _ _ _ Horph) as (P1 & P2).
  destruct (checked_loop EvRmtree _ _ _ Hrm) as (R1 & R2).
  destruct (checked_loop EvMakedirs _ _ _ Hmk) as (K1 & K2).
  assert (Hf : (forall e, e ∈ tr6 -> e ∈ tr) /\
               (forall e, e ∈ tr -> e ∈ tr6 \/
                  exists x, e = EvRoundMtime x)).
  { destruct (c_fat cfg).
    - destruct (emit_loop EvRoundMtime _ _ _ Hfat) as (E1 & E2).
      split; [exact E1|]. intros e He.
      destruct (E2 e He) as [?|(x & _ & ?)]; eauto.
    - cbv [st_ret] in Hfat. inversion Hfat; subst. split; auto. }
  destruct Hf as (E1 & E2).
  assert (Hmono : forall e, e ∈ tr2 -> e ∈ tr).
  { intros e He. apply E1, K1, R1, P1, O3. left; exact He. }
  assert (Hback : forall y, EvUnlink y ∈ tr ->
            EvUnlink y ∈ tr3 \/ y ∈ df ∖ as_format_files ss).
  { intros y Hy.
    destruct (E2 _ Hy) as [Hy6|(x & Hx)]; [|discriminate].
    destruct (K2 _ Hy6) as [Hy5|(x & _ & [Hx|(b & Hx)])]; try discriminate.
    destruct (R2 _ Hy5) as [Hy4|(x & _ & [Hx|(b & Hx)])]; try discriminate.
    destruct (P2 _ Hy4) as [Hy3|(x & Hx & [Hx'|(b & Hx')])]; try discriminate.
    - left; exact Hy3.
    - injection Hx' as ->. right. apply elem_of_elements in Hx. exact Hx. }
  split.
  - intros n phys Hn Hd.
    assert (Hnf : n ∈ flac_files ss) by (apply I1; rewrite Hn; eauto).
    assert (Hnm : n ∈ elements (flac_files ss ∩ dst_format_of cfg (w_dst_files w)))
      by (apply elem_of_elements; set_solver).
    assert (Hst : flac_stale cfg w (flac_map ss) n =
                  Qle_bool (w_dst_mtime w (dot_format n (format cfg)))
                           (w_src_mtime w (phys ++ lit ".flac")))
      by (unfold flac_stale; rewrite Hn; reflexivity).
    split.
    + intros Hle. apply Qle_bool_iff in Hle. rewrite <- Hst in Hle.
      split.
      * apply Hmono, F3. right; exists n; auto.
      * unfold transcode_jobs. apply elem_of_difference; split; [exact Hnf|].
        rewrite F1. intros [_ Hc]. apply Hc; auto.
    + intros Hlt.
      assert (Hs : flac_stale cfg w (flac_map ss) n = false).
      { rewrite Hst. destruct (Qle_bool _ _) eqn:Hq; [|reflexivity].
        apply Qle_bool_iff in Hq. exfalso; apply (Qlt_not_le _ _ Hlt Hq). }
      assert (Hin : n ∈ dff) by (apply F1; split; [exact Hd|]; intros [_ Hc]; congruence).
      split; [|unfold transcode_jobs, tagsync_jobs; set_solver].
      intros Hu. destruct (Hback _ Hu) as [Hu3|Hu3].
      * destruct (proj1 (O3 _) Hu3) as [Hu2|(x & Hx & _ & Hx')].
        -- destruct (proj1 (F3 _) Hu2) as [Hu1|(x & _ & Hsx & Hx')];
             [set_solver|].
           injection Hx' as Hx'. apply dot_format_inj in Hx'; subst. congruence.
        -- injection Hx' as <-. apply (Hnc n Hnf).
           apply elem_of_elements in Hx. set_solver.
      * apply elem_of_difference in Hu3 as [_ Hu3]. apply Hu3, I3.
        left; exists n; auto.
  - intros m phys Hm Hmd.
    assert (Hmf : m ∈ not_flac_files ss) by (apply I2; rewrite Hm; eauto).
    assert (Hst : other_stale w (not_flac_map ss) m =
                  Qle_bool (w_dst_mtime w m) (w_src_mtime w phys))
      by (unfold other_stale; rewrite Hm; reflexivity).
    split.
    + intros Hle. apply Qle_bool_iff in Hle. rewrite <- Hst in Hle.
      destruct (decide (m ∈ df1)) as [Hin|Hout].
      * split.
        -- apply E1, K1, R1, P1, O3. right; exists m.
           split; [apply elem_of_elements; set_solver|auto].
        -- unfold copy_jobs. apply elem_of_difference; split; [exact Hmf|].
           rewrite O1. intros [_ Hc]. apply Hc; split; [|exact Hle].
           apply elem_of_elements; set_solver.
      * assert (Hx : exists x, x ∈ elements (flac_files ss ∩
                        dst_format_of cfg (w_dst_files w)) /\
                      flac_stale cfg w (flac_map ss) x = true /\
                      m = dot_format x (format cfg)).
        { destruct (decide (Exists (fun x =>
                      flac_stale cfg w (flac_map ss) x = true /\
                      m = dot_format x (format cfg))
                      (elements (flac_files ss ∩
                        dst_format_of cfg (w_dst_files w))))) as [Hx|Hx].
          - apply Exists_exists in Hx as (x & Hx1 & Hx2 & Hx3). eauto.
          - exfalso. apply Hout, F2. split; [exact Hmd|].
            intros x Hx1 Hx2 ->. apply Hx, Exists_exists. eauto. }
        destruct Hx as (x & Hx1 & Hx2 & ->).
        split.
        -- apply Hmono, F3. right; eauto.
        -- unfold copy_jobs. apply elem_of_difference; split; [exact Hmf|].
           rewrite O1. intros [Hc _]. apply Hout, Hc.
    + intros Hlt.
      assert (Hs : other_stale w (not_flac_map ss) m = false).
      { rewrite Hst. destruct (Qle_bool _ _) eqn:Hq; [|reflexivity].
        apply Qle_bool_iff in Hq. exfalso; apply (Qlt_not_le _ _ Hlt Hq). }
      assert (Hnot : forall x, x ∈ elements (flac_files ss ∩
                       dst_format_of cfg (w_dst_files w)) ->
                     m <> dot_format x (format cfg)).
      { intros x Hx ->. apply (Hnc x); [|exact Hmf].
        apply elem_of_elements in Hx. set_solver. }
      assert (Hin1 : m ∈ df1)
        by (apply F2; split; [exact Hmd|]; intros x Hx _; apply Hnot, Hx).
      assert (Hin : m ∈ df)
        by (apply O1; split; [exact Hin1|]; intros [_ Hc]; congruence).
      split; [|unfold copy_jobs; set_solver].
      intros Hu. destruct (Hback _ Hu) as [Hu3|Hu3].
      * destruct (proj1 (O3 _) Hu3) as [Hu2|(x & _ & Hsx & Hx')].
        -- destruct (proj1 (F3 _) Hu2) as [Hu1|(x & Hx & _ & Hx')];
             [set_solver|].
           injection Hx' as Hx'. exact (Hnot x Hx Hx').
        -- injection Hx' as <-. congruence.
      * apply elem_of_difference in Hu3 as [_ Hu3]. apply Hu3, I3.
        right; exact Hmf.
Qed.

Lemma reconcile_staleness_rule_witness :
  exists tr ss dff df,
    reconcile (fun x => x) cfg_ogg refresh_world [] = (tr, inr (ss, dff, df)) /\
    (forall n, n ∈ flac_files ss ->
       dot_format n (format cfg_ogg) ∉ not_flac_files ss) /\
    EvUnlink (lit "a.ogg") ∈ tr /\ lit "a" ∈ transcode_jobs ss dff /\
    EvUnlink (lit "b.mp3") ∈ tr /\ lit "b.mp3" ∈ copy_jobs ss df.
Proof.
  exists [EvUnlink (lit "a.ogg"); EvUnlink (lit "b.mp3")],
    {| flac_files := {[lit "a"]}; flac_map := {[lit "a" := lit "a"]};
       as_format_files := {[lit "a.ogg"; lit "b.mp3"]};
       not_flac_files := {[lit "b.mp3"]};
       not_flac_map := {[lit "b.mp3" := lit "b.mp3"]} |}, ∅, ∅.
  assert (E : reconcile (fun x => x) cfg_ogg refresh_world [] =
    ([EvUnlink (lit "a.ogg"); EvUnlink (lit "b.mp3")],
     inr ({| flac_files := {[lit "a"]}; flac_map := {[lit "a" := lit "a"]};
             as_format_files := {[lit "a.ogg"; lit "b.mp3"]};
             not_flac_files := {[lit "b.mp3"]};
             not_flac_map := {[lit "b.mp3" := lit "b.mp3"]} |}, ∅, ∅)))
    by (vm_compute; reflexivity).
  assert (Hnc : forall n,
    n ∈ flac_files {| flac_files := {[lit "a"]};
                      flac_map := {[lit "a" := lit "a"]};
                      as_format_files := {[lit "a.ogg"; lit "b.mp3"]};
                      not_flac_files := {[lit "b.mp3"]};
                      not_flac_map := {[lit "b.mp3" := lit "b.mp3"]} |} ->
    dot_format n (format cfg_ogg) ∉ ({[lit "b.mp3"]} : gset pystr)).
  { intros n Hn. cbn in Hn. apply elem_of_singleton in Hn. subst n.
    rewrite elem_of_singleton. vm_compute. discriminate. }
  destruct (reconcile_staleness_rule _ _ _ _ _ _ _ E Hnc) as [Hf Ho].
  destruct (Hf (lit "a") (lit "a")) as [Hfs _];
    [vm_compute; reflexivity
    |apply (proj1 (bool_decide_eq_true _)); vm_compute; reflexivity|].
  destruct (Ho (lit "b.mp3") (lit "b.mp3")) as [Hos _];
    [vm_compute; reflexivity
    |apply (proj1 (bool_decide_eq_true _)); vm_compute; reflexivity|].
  destruct Hfs as [Hf1 Hf2]; [apply Qle_bool_iff; vm_compute; reflexivity|].
  destruct Hos as [Ho1 Ho2]; [apply Qle_bool_iff; vm_compute; reflexivity|].
  split; [exact E|]. split; [exact Hnc|]. auto.
Defined.

(* ================================================================== *)
(** * Further properties of the code *)

Lemma lookup_map_pystr (f : N -> N) (s : pystr) (i : nat) :
  map f s !! i = option_map f (s !! i).
Proof. revert i. induction s as [|c s IH]; intros [|i]; simpl; auto. Qed.

Lemma android_step_sep (c : N) :
  (android_step c = c_slash <-> c = c_slash) /\
  (android_step c = c_dot <-> c = c_dot).
Proof.
  unfold android_step.
  destruct (N.eqb c 58) eqn:E1.
  { apply N.eqb_eq in E1. subst c. split; split; intros H; discriminate H. }
  cbv beta iota zeta.
  destruct (N.eqb c 63) eqn:E2.
  { apply N.eqb_eq in E2. subst c. split; split; intros H; discriminate H. }
  destruct (re_unsafe_android c) eqn:E3.
  - split; split; intros H; try discriminate H; subst c; discriminate E3.
  - tauto.
Qed.

Section CharMapVerdict.

Variable g : N -> N.
Hypothesis g_slash : forall c, g c = c_slash <-> c = c_slash.
Hypothesis g_dot : forall c, g c = c_dot <-> c = c_dot.

Lemma starts_with_map_sep (p s : pystr) :
  sep_only p = true -> starts_with p (map g s) = starts_with p s.
Proof.
  revert s. induction p as [|a p IH]; intros s Hp; [destruct s; reflexivity|].
  apply andb_prop in Hp as [Ha Hp].
  destruct s as [|c s]; [reflexivity|]. simpl. rewrite IH by exact Hp.
  f_equal. apply orb_prop in Ha as [Ha|Ha]; apply N.eqb_eq in Ha; subst a;
    rewrite !(N.eqb_sym _ (g c)), !(N.eqb_sym _ c).
  - apply eqb_g_slash. exact g_slash.
  - apply eqb_g_dot. exact g_dot.
Qed.

Lemma ends_with_map_sep (p s : pystr) :
  sep_only p = true -> ends_with p (map g s) = ends_with p s.
Proof.
  intros Hp. unfold ends_with. rewrite <- map_rev. apply starts_with_map_sep.
  unfold sep_only in *. rewrite forallb_forall in *. intros x Hx.
  apply Hp, in_rev, Hx.
Qed.

Lemma contains_map_sep (p s : pystr) :
  sep_only p = true -> contains p (map g s) = contains p s.
Proof.
  intros Hp. induction s as [|c s IH].
  - reflexivity.
  - change (map g (c :: s)) with (g c :: map g s).
    simpl contains. rewrite <- IH.
    change (g c :: map g s) with (map g (c :: s)).
    rewrite starts_with_map_sep by exact Hp. reflexivity.
Qed.

Lemma safe_filename_map_sep (s : pystr) :
  safe_filename (map g s) = safe_filename s.
Proof.
  unfold safe_filename.
  rewrite !starts_with_map_sep, !ends_with_map_sep, !contains_map_sep
    by reflexivity.
  reflexivity.
Qed.

End CharMapVerdict.

Lemma drop_dots_split (r : pystr) :
  exists k, r = replicate k c_dot ++ drop_dots r.
Proof.
  induction r as [|c r IH]; [exists O; reflexivity|].
  simpl. destruct (N.eqb c c_dot) eqn:E.
  - apply N.eqb_eq in E. subst c. destruct IH as [k Hk].
    exists (S k). simpl. rewrite <- Hk. reflexivity.
  - exists O. reflexivity.
Qed.

Lemma rev_replicate_N (k : nat) (x : N) : rev (replicate k x) = replicate k x.
Proof.
  induction k as [|k IH]; [reflexivity|].
  simpl. rewrite IH. rewrite <- replicate_S_end. reflexivity.
Qed.

(** X1: [android_safe_chars_only] fails its assertion on the empty
    string; otherwise it returns a string of the same length, with no
    character that [re_unsafe_android] matches, in which each ':' becomes
    U+2236, each '?' becomes U+2E2E, every other character that
    [re_unsafe_android] matches becomes '_' and every other character is
    kept. *)
Theorem android_safe_chars_only_charwise (s : pystr) :
  (s = [] -> android_safe_chars_only s = inl AssertionError) /\
  (s <> [] -> exists t, android_safe_chars_only s = inr t /\
     length t = length s /\
     Forall (fun c => re_unsafe_android c = false) t /\
     (forall i c, s !! i = Some c ->
        t !! i = Some (if N.eqb c 58 then c_ratio
                       else if N.eqb c 63 then c_rev_question
                       else if re_unsafe_android c then c_under else c))).
Proof.
  split; [intros ->; reflexivity|].
  intros Hs. exists (map android_step s).
  split; [apply android_safe_chars_only_map, Hs|].
  split; [apply length_map|].
  split.
  - apply List.Forall_forall. intros c Hc. apply in_map_iff in Hc as [x [<- _]].
    apply android_step_not_reserved.
  - intros i c Hi. rewrite lookup_map_pystr, Hi. simpl. f_equal.
    unfold android_step.
    destruct (N.eqb c 58) eqn:E58; [reflexivity|].
    cbv beta iota zeta.
    destruct (N.eqb c 63) eqn:E63; reflexivity.
Qed.

Lemma android_safe_chars_only_charwise_witness :
  exists t, android_safe_chars_only (lit "a:b") = inr t /\
     length t = length (lit "a:b") /\
     Forall (fun c => re_unsafe_android c = false) t /\
     (forall i c, lit "a:b" !! i = Some c ->
        t !! i = Some (if N.eqb c 58 then c_ratio
                       else if N.eqb c 63 then c_rev_question
                       else if re_unsafe_android c then c_under else c)).
Proof.
  apply (android_safe_chars_only_charwise (lit "a:b")). discriminate.
Defined.

(** X2: [android_safe_chars_only] never changes the verdict of
    [safe_filename]: the rewritten name is safe exactly when the original
    one is. *)
Theorem android_safe_chars_only_keeps_verdict (s t : pystr) :
  android_safe_chars_only s = inr t -> safe_filename t = safe_filename s.
Proof.
  destruct s as [|c s]; [discriminate|].
  rewrite android_safe_chars_only_map by discriminate.
  intros H. injection H as <-.
  apply (safe_filename_map_sep android_step
           (fun x => proj1 (android_step_sep x))
           (fun x => proj2 (android_step_sep x)) (c :: s)).
Qed.

Lemma android_safe_chars_only_keeps_verdict_witness :
  android_safe_chars_only (lit "a/../b?") = inr (lit "a/../b" ++ [c_rev_question]) /\
  safe_filename (lit "a/../b" ++ [c_rev_question]) = safe_filename (lit "a/../b?").
Proof.
  split; [reflexivity|].
  apply android_safe_chars_only_keeps_verdict. reflexivity.
Defined.

(** X3: [fat_safe] fails an assertion exactly on the strings made only of
    dots (the empty string included); on any other string it returns the
    string with its trailing dots removed: a non-empty prefix that does
    not end in a dot, followed in the input only by dots. *)
Theorem fat_safe_strips_trailing_dots (text : pystr) :
  (Forall (fun c => c = c_dot) text /\ fat_safe text = inl AssertionError) \/
  (exists r k, fat_safe text = inr r /\ text = r ++ replicate k c_dot /\
               r <> [] /\ last_char r <> Some c_dot).
Proof.
  destruct (drop_dots_split (rev text)) as [k Hk].
  destruct text as [|c0 t0] eqn:Et.
  { left. split; [constructor|reflexivity]. }
  rewrite <- Et in *.
  unfold fat_safe. rewrite Et at 1. cbn [py_assert nonempty bind_exc].
  rewrite <- Et.
  destruct (drop_dots (rev text)) as [|d ds] eqn:Ed.
  - left. split; [|rewrite Et; reflexivity].
    rewrite app_nil_r in Hk. apply (f_equal (@rev N)) in Hk.
    rewrite rev_involutive, rev_replicate_N in Hk. rewrite Hk.
    apply Forall_replicate. reflexivity.
  - right. exists (rev (d :: ds)), k.
    assert (nonempty (rev (d :: ds)) = true) as Hne
      by (simpl; destruct (rev ds); reflexivity).
    split; [rewrite Et; cbn [py_assert nonempty bind_exc]; rewrite Hne;
            reflexivity|].
    split; [|split].
    + apply (f_equal (@rev N)) in Hk. rewrite rev_involutive in Hk.
      rewrite Hk, rev_app_distr, rev_replicate_N. reflexivity.
    + intros H. apply (f_equal (@rev N)) in H. rewrite rev_involutive in H.
      discriminate H.
    + unfold last_char. rewrite rev_involutive. rewrite <- Ed.
      apply drop_dots_hd.
Qed.

(** X4: A result of [safe_chars_only] is non-empty and contains no
    character that the pattern in force ([re_unsafe_f] for file names,
    [re_unsafe_d] for directory names) matches. *)
Theorem safe_chars_only_charset (unidecode : pystr -> pystr) (text : pystr)
    (file : bool) (r : pystr) :
  safe_chars_only unidecode text file = inr r ->
  r <> [] /\
  Forall (fun c => (if file then re_unsafe_f c else re_unsafe_d c) = false) r.
Proof.
  unfold safe_chars_only.
  destruct (py_assert (nonempty text)); cbn [bind_exc]; [discriminate|].
  destruct (mapM_exc _ _) as [e|parts]; cbn [bind_exc]; [discriminate|].
  destruct (py_assert (nonempty (if file then _ else _))) eqn:Ha;
    cbn [bind_exc]; [discriminate|].
  intros H. injection H as <-. split.
  - destruct file; unfold py_assert in Ha;
      destruct (re_sub_class _ _ _); discriminate.
  - apply List.Forall_forall. intros c Hc. unfold re_sub_class in Hc.
    destruct file; apply in_map_iff in Hc as [x [<- _]].
    + destruct (re_unsafe_f x) eqn:E; [reflexivity|exact E].
    + destruct (re_unsafe_d x) eqn:E; [reflexivity|exact E].
Qed.

Lemma safe_chars_only_charset_witness :
  safe_chars_only (fun s => s) (lit "a*b/c") false = inr (lit "a_b/c") /\
  lit "a_b/c" <> [] /\
  Forall (fun c => re_unsafe_d c = false) (lit "a_b/c").
Proof.
  split; [reflexivity|].
  apply (safe_chars_only_charset (fun s => s) (lit "a*b/c") false).
  reflexivity.
Defined.

(** X5: [round_mtime] is idempotent: rounding the modification time a
    second time changes nothing. *)
Theorem round_mtime_idempotent (st : stat_times) :
  round_mtime (round_mtime st) = round_mtime st.
Proof.
  destruct (Qeq_bool (py_fmod2 (st_mtime st)) 0) eqn:E.
  - assert (round_mtime st = st) as H
      by (unfold round_mtime; rewrite E; reflexivity).
    rewrite H, H. reflexivity.
  - set (K := ((Qceiling (st_mtime st) + 1) / 2 * 2)%Z).
    assert (round_mtime st = {| st_atime := st_atime st;
                                st_mtime := inject_Z K |}) as H
      by (unfold round_mtime; rewrite E; reflexivity).
    rewrite H. unfold round_mtime at 1. cbn [st_mtime st_atime].
    assert (Qeq_bool (py_fmod2 (inject_Z K)) 0 = true) as ->.
    { apply py_fmod2_zero. exists ((Qceiling (st_mtime st) + 1) / 2)%Z.
      unfold K. rewrite Z.mul_comm. reflexivity. }
    reflexivity.
Qed.

(** X6: For ogg the tag synchronisation of [sync_flac] is idempotent:
    running it again with the same source tags against the destination
    tags it produced reports no change and leaves those tags as they
    are. *)
Theorem sync_flac_tags_idempotent (id3_write : tagmap -> tagmap -> except tagmap)
    (src dst res : tagmap) (changed : bool) :
  sync_flac_tags id3_write (lit "ogg") src dst = inr (changed, res) ->
  sync_flac_tags id3_write (lit "ogg") src res = inr (false, res).
Proof.
  unfold sync_flac_tags.
  rewrite (bool_decide_eq_true_2 (lit "ogg" = lit "ogg")) by reflexivity.
  rewrite (bool_decide_eq_false_2 (lit "ogg" = lit "mp3")) by discriminate.
  cbn [bind_exc]. intros H.
  assert (res = src) as ->.
  { destruct (bool_decide (src <> dst)) eqn:Ed; injection H as _ <-;
      [reflexivity|].
    apply bool_decide_eq_false in Ed. apply dec_stable in Ed. symmetry; exact Ed. }
  rewrite (bool_decide_eq_false_2 (src <> src)) by tauto. reflexivity.
Qed.

Lemma sync_flac_tags_idempotent_witness :
  sync_flac_tags (fun _ items => inr items) (lit "ogg") flac_src_tags ∅
    = inr (true, flac_src_tags) /\
  sync_flac_tags (fun _ items => inr items) (lit "ogg") flac_src_tags
    flac_src_tags = inr (false, flac_src_tags).
Proof.
  assert (E : sync_flac_tags (fun _ items => inr items) (lit "ogg")
                flac_src_tags ∅ = inr (true, flac_src_tags))
    by (vm_compute; reflexivity).
  split; [exact E|exact (sync_flac_tags_idempotent _ _ _ _ _ E)].
Defined.

(** X7: [safe_filename] accepts every name that contains no '/', including
    "." and "..". *)
Theorem safe_filename_slash_free (s : pystr) :
  ~ In c_slash s -> safe_filename s = true.
Proof. apply safe_filename_no_slash. Qed.

Lemma safe_filename_slash_free_witness : safe_filename (lit "..") = true.
Proof.
  apply safe_filename_slash_free. simpl. intros [H|[H|[]]]; discriminate H.
Defined.

Lemma digits_acc_digits (ds rest : pystr) (a : Z) :
  Forall (fun c => is_digit c = true) ds ->
  digits_acc (ds ++ rest) a false = digits_acc rest (fold_left dstep ds a) false.
Proof.
  revert a. induction ds as [|c ds IH]; intros a H; [reflexivity|].
  inversion H as [|? ? Hc Hds]; subst. simpl. rewrite Hc. apply IH, Hds.
Qed.

Lemma digit_char (n : Z) :
  (0 <= n)%Z ->
  is_digit (Z.to_N (48 + n mod 10)) = true /\
  Z.of_N (Z.to_N (48 + n mod 10) - 48) = (n mod 10)%Z.
Proof.
  intros Hn. pose proof (Z.mod_pos_bound n 10 ltac:(lia)).
  unfold is_digit. split.
  - apply andb_true_intro. split; apply N.leb_le; lia.
  - lia.
Qed.

Lemma digits_of_S (f : nat) (n : Z) (acc : pystr) :
  digits_of (S f) n acc =
  if (n <? 10)%Z then Z.to_N (48 + n mod 10) :: acc
  else digits_of f (n / 10) (Z.to_N (48 + n mod 10) :: acc).
Proof. reflexivity. Qed.

Lemma digits_of_spec (f : nat) : forall (n : Z) (acc : pystr),
  (0 <= n < 10 ^ Z.of_nat (S f))%Z ->
  exists ds, digits_of (S f) n acc = ds ++ acc /\ ds <> [] /\
    Forall (fun c => is_digit c = true) ds /\
    forall a, fold_left dstep ds a = (a * 10 ^ Z.of_nat (length ds) + n)%Z.
Proof.
  induction f as [|f IH]; intros n acc Hn.
  - cbn [digits_of]. rewrite (proj2 (Z.ltb_lt n 10)) by (simpl in Hn; lia).
    destruct (digit_char n) as [Hd Hv]; [lia|].
    exists [Z.to_N (48 + n mod 10)]. split; [reflexivity|].
    split; [discriminate|]. split; [constructor; auto|].
    intros a. simpl. unfold dstep. rewrite Hv.
    rewrite Z.mod_small by (simpl in Hn; lia). lia.
  - rewrite digits_of_S. destruct (digit_char n) as [Hd Hv]; [lia|].
    destruct (n <? 10)%Z eqn:E.
    + apply Z.ltb_lt in E.
      exists [Z.to_N (48 + n mod 10)]. split; [reflexivity|].
      split; [discriminate|]. split; [constructor; auto|].
      intros a. simpl. unfold dstep. rewrite Hv.
      rewrite Z.mod_small by lia. lia.
    + apply Z.ltb_ge in E.
      destruct (IH (n / 10)%Z (Z.to_N (48 + n mod 10) :: acc))
        as (ds & Hds & Hne & Hdig & Hval).
      { split; [apply Z.div_pos; lia|].
        apply Z.div_lt_upper_bound; [lia|].
        rewrite Nat2Z.inj_succ, Z.pow_succ_r in Hn by lia. lia. }
      exists (ds ++ [Z.to_N (48 + n mod 10)]).
      split; [rewrite Hds, <- app_assoc; reflexivity|].
      split; [destruct ds; [congruence|discriminate]|].
      split; [apply Forall_app; split; [exact Hdig|constructor; auto]|].
      intros a. rewrite fold_left_app, Hval. simpl. unfold dstep. rewrite Hv.
      rewrite length_app, Nat2Z.inj_add, Z.pow_add_r by lia.
      pose proof (Z.div_mod n 10 ltac:(lia)). simpl (Z.of_nat (length [_])).
      nia.
Qed.

Lemma dec_spec (n : Z) :
  (0 <= n)%Z ->
  exists ds, dec n = ds /\ ds <> [] /\
    Forall (fun c => is_digit c = true) ds /\ fold_left dstep ds 0%Z = n.
Proof.
  intros Hn. unfold dec.
  destruct (digits_of_spec (Z.to_nat (Z.log2 n)) n []) as (ds & Hds & Hne & Hdig & Hval).
  { split; [exact Hn|]. rewrite Nat2Z.inj_succ, Z2Nat.id by apply Z.log2_nonneg.
    destruct (Z.eq_dec n 0%Z) as [->|Hn0]; [reflexivity|].
    destruct (Z.log2_spec n ltac:(lia)) as [_ H2].
    eapply Z.lt_le_trans; [exact H2|].
    apply Z.pow_le_mono_l. lia. }
  exists ds. rewrite Hds, app_nil_r. split; [reflexivity|].
  split; [exact Hne|]. split; [exact Hdig|]. rewrite Hval. lia.
Qed.

Lemma digit_not_space (c : N) : is_digit c = true -> is_space c = false.
Proof.
  unfold is_digit, is_space, in_chars. intros H.
  apply andb_prop in H as [H1 H2]. apply N.leb_le in H1, H2.
  simpl. repeat rewrite (proj2 (N.eqb_neq _ _)) by lia. reflexivity.
Qed.

Lemma lstrip_ws_id (s : pystr) :
  (forall c, hd_error s = Some c -> is_space c = false) -> lstrip_ws s = s.
Proof.
  destruct s as [|c s]; [reflexivity|]. intros H. simpl.
  rewrite (H c eq_refl). reflexivity.
Qed.

Lemma strip_ws_id (s : pystr) :
  (forall c, hd_error s = Some c -> is_space c = false) ->
  (forall c, hd_error (rev s) = Some c -> is_space c = false) ->
  strip_ws s = s.
Proof.
  intros H1 H2. unfold strip_ws. rewrite (lstrip_ws_id s H1).
  rewrite (lstrip_ws_id (rev s) H2). apply rev_involutive.
Qed.

Lemma hd_error_rev_in (s : pystr) c : hd_error (rev s) = Some c -> In c s.
Proof.
  intros H. apply in_rev. destruct (rev s); simpl in H; [discriminate|].
  injection H as ->. left; reflexivity.
Qed.

Lemma long_from_ascii_unsigned (s : pystr) :
  s <> [] -> Forall (fun c => is_digit c = true) s ->
  long_from_ascii s = Some (fold_left dstep s 0%Z).
Proof.
  intros Hne Hdig.
  assert (strip_ws s = s) as Hs.
  { apply strip_ws_id; intros c Hc; apply digit_not_space.
    - destruct s; simpl in Hc; [discriminate|]. injection Hc as ->.
      inversion Hdig; assumption.
    - apply hd_error_rev_in in Hc. rewrite List.Forall_forall in Hdig.
      apply Hdig, Hc. }
  assert (digits_acc s 0%Z false = Some (fold_left dstep s 0%Z)) as Hv.
  { rewrite <- (app_nil_r s) at 1. rewrite digits_acc_digits by exact Hdig.
    reflexivity. }
  unfold long_from_ascii. rewrite Hs.
  destruct s as [|c b]; [congruence|].
  assert (is_digit c = true) as Hc by (inversion Hdig; assumption).
  assert (c = 48 \/ c = 49 \/ c = 50 \/ c = 51 \/ c = 52 \/ c = 53 \/
          c = 54 \/ c = 55 \/ c = 56 \/ c = 57) as Hcs.
  { unfold is_digit in Hc. apply andb_prop in Hc as [H1 H2].
    apply N.leb_le in H1, H2. lia. }
  repeat destruct Hcs as [-> | Hcs]; try subst c;
    cbn -[fold_left digits_acc]; rewrite Hv; cbn [option_map]; f_equal; lia.
Qed.

Lemma long_from_ascii_fmt02d (n : Z) : long_from_ascii (fmt02d n) = Some n.
Proof.
  unfold fmt02d. destruct (n <? 0)%Z eqn:Hn.
  - apply Z.ltb_lt in Hn.
    destruct (dec_spec (- n)) as (ds & -> & Hne & Hdig & Hval); [lia|].
    assert (strip_ws (45 :: ds) = 45 :: ds) as Hs.
    { apply strip_ws_id; intros c Hc.
      - injection Hc as <-. reflexivity.
      - apply digit_not_space. simpl in Hc.
        destruct (rev ds) as [|x r] eqn:E.
        + apply (f_equal (@rev N)) in E. rewrite rev_involutive in E.
          simpl in E. congruence.
        + simpl in Hc. injection Hc as ->.
          rewrite List.Forall_forall in Hdig. apply Hdig, in_rev.
          rewrite E. left; reflexivity. }
    assert (digits_acc ds 0%Z false = Some (fold_left dstep ds 0%Z)) as Hv.
    { rewrite <- (app_nil_r ds) at 1. rewrite digits_acc_digits by exact Hdig.
      reflexivity. }
    unfold long_from_ascii. rewrite Hs. cbv iota beta.
    destruct ds as [|c b]; [congruence|].
    inversion Hdig as [|? ? Hc _]; subst. rewrite Hc.
    rewrite Hv, Hval. simpl. f_equal. lia.
  - apply Z.ltb_ge in Hn.
    destruct (dec_spec n) as (ds & -> & Hne & Hdig & Hval); [lia|].
    destruct (length ds <? 2)%nat.
    + rewrite long_from_ascii_unsigned.
      * cbn [fold_left]. replace (dstep 0%Z 48) with 0%Z by reflexivity.
        rewrite Hval. reflexivity.
      * discriminate.
      * constructor; [reflexivity|exact Hdig].
    + rewrite long_from_ascii_unsigned by assumption. rewrite Hval. reflexivity.
Qed.

Lemma fmt02d_chars (n : Z) :
  Forall (fun c => c = 45 \/ is_digit c = true) (fmt02d n).
Proof.
  unfold fmt02d. destruct (n <? 0)%Z eqn:Hn.
  - apply Z.ltb_lt in Hn.
    destruct (dec_spec (- n)) as (ds & -> & _ & Hdig & _); [lia|].
    constructor; [left; reflexivity|].
    eapply Forall_impl; [exact Hdig|]. intros; right; assumption.
  - apply Z.ltb_ge in Hn.
    destruct (dec_spec n) as (ds & -> & _ & Hdig & _); [lia|].
    destruct (length ds <? 2)%nat; [constructor; [right; reflexivity|]|];
      (eapply Forall_impl; [exact Hdig|]); intros; right; assumption.
Qed.

Lemma digits_of_length (f : nat) : forall (n : Z) (acc : pystr) (k : nat),
  (0 <= n < 10 ^ Z.of_nat (S k))%Z ->
  (length (digits_of f n acc) <= S k + length acc)%nat.
Proof.
  induction f as [|f IH]; intros n acc k Hn; [cbn [digits_of]; lia|].
  rewrite digits_of_S. destruct (n <? 10)%Z eqn:E; [simpl; lia|].
  apply Z.ltb_ge in E. destruct k as [|k].
  - simpl in Hn. lia.
  - specialize (IH (n / 10)%Z (Z.to_N (48 + n mod 10) :: acc) k).
    simpl length in IH. enough (length (digits_of f (n / 10) (Z.to_N (48 + n mod 10) :: acc)) <= S k + S (length acc))%nat by lia.
    apply IH. split; [apply Z.div_pos; lia|].
    apply Z.div_lt_upper_bound; [lia|].
    rewrite Nat2Z.inj_succ, Z.pow_succ_r in Hn by lia. lia.
Qed.

Lemma dec_length (n : Z) (k : nat) :
  (0 <= n < 10 ^ Z.of_nat (S k))%Z -> (length (dec n) <= S k)%nat.
Proof.
  intros Hn. unfold dec.
  pose proof (digits_of_length (S (Z.to_nat (Z.log2 n))) n [] k Hn) as H.
  change (length (@nil N)) with 0%nat in H. lia.
Qed.

Lemma digit_count_le (s : pystr) : (digit_count s <= length s)%nat.
Proof. induction s as [|c s IH]; simpl; [lia|destruct (is_digit c); lia]. Qed.

Lemma fmt02d_digit_count (n : Z) :
  (Z.abs n < 10 ^ 4300)%Z -> (digit_count (fmt02d n) <= int_max_str_digits)%nat.
Proof.
  intros Hn. assert (Hk : Z.of_nat (S 4299) = 4300%Z) by reflexivity.
  apply Z.abs_lt in Hn.
  assert (Hdec : forall m, (0 <= m)%Z -> (m < 10 ^ 4300)%Z ->
            (length (dec m) <= int_max_str_digits)%nat).
  { intros m H0 H1. apply dec_length. rewrite Hk. split; assumption. }
  unfold fmt02d. destruct (n <? 0)%Z eqn:Hs.
  - apply Z.ltb_lt in Hs. cbn [digit_count is_digit].
    change (0 + digit_count (dec (- n)) <= int_max_str_digits)%nat.
    rewrite Nat.add_0_l. eapply Nat.le_trans; [apply digit_count_le|].
    apply Hdec; [apply Z.opp_nonneg_nonpos, Z.lt_le_incl, Hs|].
    apply Z.opp_lt_mono. rewrite Z.opp_involutive. apply Hn.
  - apply Z.ltb_ge in Hs.
    destruct (length (dec n) <? 2)%nat eqn:E.
    + apply Nat.ltb_lt in E. eapply Nat.le_trans; [apply digit_count_le|].
      cbn [length]. unfold int_max_str_digits.
      apply (Nat.le_trans _ 2); [exact E|].
      apply Nat.leb_le. reflexivity.
    + eapply Nat.le_trans; [apply digit_count_le|].
      apply Hdec; [exact Hs|apply Hn].
Qed.

Lemma to_ascii_decimal_ascii (s : pystr) :
  Forall (fun c => c < 127) s -> to_ascii_decimal s = Some s.
Proof.
  induction 1 as [|c s Hc _ IH]; [reflexivity|].
  simpl. rewrite (proj2 (N.ltb_lt c 127) Hc), IH. reflexivity.
Qed.

(** X8: The number formatting of [get_title] round-trips through [int]:
    parsing f"{n:02d}" gives back n, for every integer n of at most 4300
    digits (the default limit of both conversions). *)
Theorem py_int_fmt02d (n : Z) :
  (Z.abs n < 10 ^ 4300)%Z -> py_int (fmt02d n) = Some n.
Proof.
  intros Hn. unfold py_int.
  rewrite to_ascii_decimal_ascii.
  - rewrite (proj2 (Nat.ltb_ge _ _) (fmt02d_digit_count n Hn)).
    apply long_from_ascii_fmt02d.
  - eapply Forall_impl; [apply fmt02d_chars|].
    intros c [->|Hc]; [lia|]. unfold is_digit in Hc.
    apply andb_prop in Hc as [_ H]. apply N.leb_le in H. lia.
Qed.

Lemma py_int_fmt02d_witness :
  (Z.abs 7 < 10 ^ 4300)%Z /\ py_int (fmt02d 7) = Some 7%Z.
Proof.
  assert (H : (Z.abs 7 < 10 ^ 4300)%Z) by (apply Z.ltb_lt; vm_compute; reflexivity).
  split; [exact H|exact (py_int_fmt02d 7 H)].
Defined.

Lemma fmt02d_no_slash (n : Z) : ~ In c_slash (fmt02d n).
Proof.
  intros H. pose proof (fmt02d_chars n) as HF. rewrite List.Forall_forall in HF.
  destruct (HF _ H) as [E|E]; vm_compute in E; discriminate E.
Qed.

Lemma last_char_map (f : N -> N) (s : pystr) :
  last_char (map f s) = option_map f (last_char s).
Proof. unfold last_char. rewrite <- map_rev. destruct (rev s); reflexivity. Qed.

Lemma safe_chars_only_shape (unidecode : pystr -> pystr) (text : pystr)
    (file : bool) (r : pystr) :
  safe_chars_only unidecode text file = inr r ->
  exists j, j <> [] /\ well_separated j /\
    r = (if file then re_sub_class re_unsafe_f c_under j
         else re_sub_class re_unsafe_d c_under j).
Proof.
  unfold safe_chars_only.
  destruct (py_assert (nonempty text)); cbn [bind_exc]; [discriminate|].
  set (f := fun x => fat_safe (replace [c_slash] [c_under] (unidecode x))).
  destruct (mapM_exc f _) as [e|parts] eqn:Hm; cbn [bind_exc];
    [discriminate|].
  apply (mapM_exc_forall f seg_ok) in Hm as [HF HL].
  2: { intros x w Hx. apply fat_safe_ok in Hx as (Hne & Hl & Hin).
       split; [exact Hne|split; [|exact Hl]].
       intros Hs. apply Hin in Hs. apply replace_slash_no_slash in Hs.
       exact Hs. }
  assert (parts <> []) as Hpne.
  { intros ->. simpl in HL. symmetry in HL. apply length_zero_iff_nil in HL.
    revert HL. apply split_on_nonempty. }
  destruct (py_assert (nonempty (if file then _ else _))); cbn [bind_exc];
    [discriminate|].
  intros H. injection H as <-. exists (join [c_slash] parts).
  split; [|split; [apply join_well_separated; assumption|reflexivity]].
  destruct parts as [|p0 ps]; [congruence|]. apply join_nonempty.
  inversion HF as [|? ? Hp0 _]. apply Hp0.
Qed.

Lemma safe_chars_only_file_component (unidecode : pystr -> pystr)
    (text r : pystr) :
  safe_chars_only unidecode text true = inr r ->
  r <> [] /\ ~ In c_slash r /\ last_char r <> Some c_dot.
Proof.
  intros H. pose proof H as H'.
  apply safe_chars_only_shape in H as (j & Hj & (_ & _ & _ & Hl) & ->).
  split; [destruct j; [congruence|discriminate]|].
  split; [apply re_unsafe_f_no_slash|].
  unfold re_sub_class. rewrite last_char_map.
  destruct (last_char j) as [c|]; simpl; [|discriminate].
  intros E. injection E as E. destruct (re_unsafe_f c); [discriminate E|].
  subst c. apply Hl. reflexivity.
Qed.

Lemma safe_chars_only_dir_ws (unidecode : pystr -> pystr) (text r : pystr) :
  safe_chars_only unidecode text false = inr r ->
  r <> [] /\ well_separated r.
Proof.
  intros H. apply safe_chars_only_shape in H as (j & Hj & Hws & ->).
  split; [destruct j; [congruence|discriminate]|].
  destruct re_unsafe_d_keeps_separators as [H1 H2].
  apply well_separated_map; assumption.
Qed.

Lemma number_part_no_slash (f : Z -> pystr) (d0 d1 : pystr) :
  (forall n, ~ In c_slash (f n)) ->
  (if nonempty d0
   then match py_int d0 with Some n => inr (f n) | None => inl ValueError end
   else inr d0) = inr d1 ->
  ~ In c_slash d1.
Proof.
  intros Hf. destruct d0 as [|c d0]; simpl.
  - intros H. injection H as <-. simpl. tauto.
  - destruct (py_int (c :: d0)); [|discriminate].
    intros H. injection H as <-. apply Hf.
Qed.

Lemma get_title_shape (unidecode : pystr -> pystr) (vc : vcomment)
    (t : pystr) :
  get_title unidecode vc = inr t ->
  t <> [] /\ ~ In c_slash t /\ last_char t <> Some c_dot.
Proof.
  unfold get_title.
  destruct (py_index0 (vc_get vc (lit "DISCNUMBER") [[]])) as [e|disc];
    cbn [bind_exc]; [discriminate|].
  destruct (py_index0 (vc_get vc (lit "TRACKNUMBER") [[]])) as [e|track];
    cbn [bind_exc]; [discriminate|].
  match goal with |- bind_exc ?m1 _ = _ -> _ =>
    destruct m1 as [e|d1] eqn:Ed end; cbn [bind_exc]; [discriminate|].
  apply (number_part_no_slash (fun n => fmt02d n ++ lit ".")) in Ed.
  2: { intros n Hn. apply in_app_or in Hn as [Hn|Hn];
       [exact (fmt02d_no_slash n Hn)|simpl in Hn; destruct Hn as [E|[]];
        discriminate E]. }
  match goal with |- bind_exc ?m1 _ = _ -> _ =>
    destruct m1 as [e|t1] eqn:Et end; cbn [bind_exc]; [discriminate|].
  apply (number_part_no_slash fmt02d) in Et; [|exact fmt02d_no_slash].
  destruct (vc_getitem vc (lit "TITLE")) as [e|titles]; cbn [bind_exc];
    [discriminate|].
  destruct (py_index0 titles) as [e|title0]; cbn [bind_exc]; [discriminate|].
  destruct (safe_chars_only unidecode _ true) as [e|title] eqn:Hs;
    cbn [bind_exc]; [discriminate|].
  apply safe_chars_only_file_component in Hs as (Hne & Hsl & Hl).
  intros H. injection H as <-.
  assert (~ In c_slash (if nonempty (d1 ++ t1) then (d1 ++ t1) ++ lit " "
                        else d1 ++ t1)) as Hp.
  { assert (~ In c_slash (d1 ++ t1)) as Hdt
      by (intros Hin; apply in_app_or in Hin as [Hin|Hin]; auto).
    destruct (nonempty (d1 ++ t1)); [|exact Hdt].
    intros Hin. apply in_app_or in Hin as [Hin|Hin]; [auto|].
    simpl in Hin. destruct Hin as [E|[]]. discriminate E. }
  split; [|split].
  - intros E. apply app_eq_nil in E as [_ E]. congruence.
  - intros Hin. apply in_app_or in Hin as [Hin|Hin]; auto.
  - rewrite last_char_app by exact Hne. exact Hl.
Qed.

Lemma no_dot_slash_app (a b : pystr) :
  no_dot_slash a = true -> last_char a <> Some c_dot ->
  no_dot_slash b = true -> no_dot_slash (a ++ b) = true.
Proof.
  induction a as [|x a IH]; intros Ha Hl Hb; [exact Hb|].
  destruct a as [|y a].
  - simpl. destruct b as [|z b]; [reflexivity|].
    assert (N.eqb x c_dot = false) as ->
      by (apply N.eqb_neq; intros ->; apply Hl; reflexivity).
    exact Hb.
  - change ((x :: y :: a) ++ b) with (x :: y :: (a ++ b)).
    change (no_dot_slash (x :: y :: a))
      with (negb (N.eqb x c_dot && N.eqb y c_slash) && no_dot_slash (y :: a))
      in Ha.
    apply andb_prop in Ha as [Hxy Ha].
    change (no_dot_slash (x :: y :: (a ++ b)))
      with (negb (N.eqb x c_dot && N.eqb y c_slash)
            && no_dot_slash ((y :: a) ++ b)).
    rewrite Hxy. apply IH; [exact Ha| |exact Hb].
    change (x :: y :: a) with ([x] ++ (y :: a)) in Hl.
    rewrite last_char_app in Hl by discriminate. exact Hl.
Qed.

Lemma no_dot_slash_no_slash (t : pystr) :
  ~ In c_slash t -> no_dot_slash t = true.
Proof.
  induction t as [|x t IH]; intros H; [reflexivity|].
  destruct t as [|y t]; [reflexivity|].
  change (no_dot_slash (x :: y :: t))
    with (negb (N.eqb x c_dot && N.eqb y c_slash) && no_dot_slash (y :: t)).
  assert (N.eqb y c_slash = false) as ->
    by (apply N.eqb_neq; intros ->; apply H; simpl; auto).
  rewrite andb_false_r. simpl. apply IH. intros Hin. apply H. right. exact Hin.
Qed.

Lemma path_join_component_safe (d t : pystr) :
  d <> [] -> well_separated d ->
  t <> [] -> ~ In c_slash t -> last_char t <> Some c_dot ->
  safe_filename (path_join d t) = true.
Proof.
  intros Hd (Hhd & Hn & Hl1 & Hl2) Ht Hts Htl.
  assert (path_join d t = d ++ c_slash :: t) as ->.
  { unfold path_join. destruct t as [|x t']; [congruence|].
    assert (N.eqb c_slash x = false) as Hx
      by (apply N.eqb_neq; intros <-; apply Hts; left; reflexivity).
    assert (ends_with [c_slash] d = false) as He.
    { unfold ends_with. change (rev [c_slash]) with [c_slash].
      unfold last_char in Hl1. destruct (rev d) as [|y r]; [reflexivity|].
      simpl in Hl1. cbn [starts_with].
      assert (N.eqb c_slash y = false) as ->
        by (apply N.eqb_neq; intros <-; apply Hl1; reflexivity).
      reflexivity. }
    cbn [starts_with]. rewrite Hx. cbn [andb]. rewrite He.
    destruct d as [|z d']; [congruence|]. reflexivity. }
  apply safe_filename_well_separated. split; [|split; [|split]].
  - destruct d as [|z d']; [congruence|]. exact Hhd.
  - apply no_dot_slash_app; [exact Hn|exact Hl2|].
    change (c_slash :: t) with ([c_slash] ++ t).
    apply no_dot_slash_app; [reflexivity|discriminate|].
    apply no_dot_slash_no_slash, Hts.
  - replace (d ++ c_slash :: t) with ((d ++ [c_slash]) ++ t)
      by (rewrite <- app_assoc; reflexivity).
    rewrite last_char_app by exact Ht.
    unfold last_char in *. destruct (rev t) as [|c r] eqn:E; [discriminate|].
    simpl. intros H. injection H as ->. apply Hts, in_rev. rewrite E.
    left; reflexivity.
  - replace (d ++ c_slash :: t) with ((d ++ [c_slash]) ++ t)
      by (rewrite <- app_assoc; reflexivity).
    rewrite last_char_app by exact Ht.
    exact Htl.
Qed.

(** X9: A title built by [get_title] is a single non-empty path component
    that does not end in a dot: it contains no '/'. *)
Theorem get_title_single_component (unidecode : pystr -> pystr)
    (vc : vcomment) (t : pystr) :
  get_title unidecode vc = inr t ->
  t <> [] /\ ~ In c_slash t /\ last_char t <> Some c_dot.
Proof. apply get_title_shape. Qed.

Lemma get_title_single_component_witness :
  get_title (fun s => s) sample_tags = inr (lit "02.01 Song-Intro_") /\
  lit "02.01 Song-Intro_" <> [] /\ ~ In c_slash (lit "02.01 Song-Intro_") /\
  last_char (lit "02.01 Song-Intro_") <> Some c_dot.
Proof.
  assert (E : get_title (fun s => s) sample_tags = inr (lit "02.01 Song-Intro_"))
    by (vm_compute; reflexivity).
  split; [exact E|]. exact (get_title_single_component _ _ _ E).
Defined.

(** X10: Under the rewrite policy every destination name that the
    classification of a source file produces passes [safe_filename]. *)
Theorem classify_rewrite_names_safe (unidecode : pystr -> pystr)
    (cfg : config) (w : world) (name : pystr) (is_flac : bool)
    (m phys : pystr) :
  c_policy cfg = Rewrite ->
  classify unidecode cfg w name = inr (is_flac, m, phys) ->
  safe_filename m = true.
Proof.
  intros Hp. unfold classify. rewrite Hp.
  destruct (bool_decide _); cbn [bind_exc].
  - destruct (safe_chars_only unidecode _ false) as [e|d] eqn:Hd;
      cbn [bind_exc]; [discriminate|].
    destruct (get_title unidecode _) as [e|t] eqn:Ht; cbn [bind_exc];
      [discriminate|].
    intros H. injection H as _ <- _.
    apply safe_chars_only_dir_ws in Hd as [Hdne Hdws].
    apply get_title_shape in Ht as (Htne & Hts & Htl).
    apply path_join_component_safe; assumption.
  - destruct (safe_chars_only unidecode name false) as [e|d] eqn:Hd;
      cbn [bind_exc]; [discriminate|].
    intros H. injection H as _ <- _.
    apply safe_filename_well_separated.
    apply (safe_chars_only_dir_ws unidecode name), Hd.
Qed.

Lemma classify_rewrite_names_safe_witness :
  classify (fun s => s) cfg_rewrite_ogg tagged_world (lit "Artist/Album/01.flac")
    = inr (true, lit "Artist/Album/02.01 Song-Intro_", lit "Artist/Album/01") /\
  safe_filename (lit "Artist/Album/02.01 Song-Intro_") = true.
Proof.
  assert (E : classify (fun s => s) cfg_rewrite_ogg tagged_world
                (lit "Artist/Album/01.flac")
              = inr (true, lit "Artist/Album/02.01 Song-Intro_",
                     lit "Artist/Album/01")) by (vm_compute; reflexivity).
  split; [exact E|].
  exact (classify_rewrite_names_safe _ cfg_rewrite_ogg _ _ _ _ _ eq_refl E).
Defined.

Lemma pykey_eqb_refl (k : pykey) : pykey_eqb k k = true.
Proof.
  destruct k; simpl; [apply bool_decide_eq_true_2; reflexivity|].
  rewrite bool_decide_eq_true_2 by reflexivity. apply Bool.eqb_reflx.
Qed.

Lemma dict_getitem_setitem (d : pydict) (k : pykey) (v : bool) :
  dict_getitem (dict_setitem d k v) k = inr v.
Proof.
  unfold dict_setitem, dict_getitem, dict_contains.
  destruct (existsb (fun kv => pykey_eqb kv.1 k) d) eqn:E.
  - induction d as [|[k' v'] d IH]; [discriminate|].
    simpl in *. destruct (pykey_eqb k' k) eqn:Ek; simpl.
    + rewrite pykey_eqb_refl. reflexivity.
    + rewrite Ek. apply IH, E.
  - induction d as [|[k' v'] d IH]; simpl; [rewrite pykey_eqb_refl; reflexivity|].
    simpl in E. apply orb_false_elim in E as [E1 E2]. rewrite E1. apply IH, E2.
Qed.

Lemma st_bind_a_get {A} (m : St astate A) (k : pykey) (s s' : astate) (b : bool) :
  st_bind m (fun _ => a_get k) s = (s', inr b) -> dict_getitem (memo s') k = inr b.
Proof.
  unfold st_bind. destruct (m s) as [s1 [e|a]]; [discriminate|].
  unfold a_get. intros H. injection H as <- H. exact H.
Qed.

Lemma st_bind_a_set_false (k : pykey) (s s' : astate) (b : bool) :
  st_bind (a_set k false) (fun _ => st_ret false) s = (s', inr b) ->
  dict_getitem (memo s') k = inr b /\ b = false.
Proof.
  cbn. intros H. injection H as <- <-. split; [|reflexivity].
  apply dict_getitem_setitem.
Qed.

(** X11: When [_has_access] grants access to a path that has a parent
    (its dirname differs from it), the recursive call on the parent,
    made from the same memo, also granted access. *)
Theorem has_access_requires_parent (uid : N) (groups : list N) (src : pystr)
    (lstat : pystr -> option node) (f : nat) (path : pystr) (target : bool)
    (s s' : astate) :
  (forall p, dict_contains (memo s) (KStr p) = false) ->
  dirname path <> path ->
  has_access (Some (uid, groups)) src lstat (S f) path target s = (s', inr true) ->
  exists s2, has_access (Some (uid, groups)) src lstat f (dirname path) target s
             = (s2, inr true).
Proof.
  intros Hk Hd H.
  cbn [has_access] in H. unfold st_bind at 1, a_in in H. rewrite Hk in H.
  rewrite bool_decide_eq_true_2 in H by exact Hd.
  unfold st_bind at 1 in H.
  destruct (has_access (Some (uid, groups)) src lstat f (dirname path) target s)
    as [s1 [e|[|]]]; [discriminate| eauto |].
  cbn in H. discriminate H.
Qed.

(** X12: When [os.lstat] finds no entry for the path, [_has_access]
    answers False and records False for (path, target) in its memo. *)
Theorem has_access_missing_path (uid : N) (groups : list N) (src : pystr)
    (lstat : pystr -> option node) (fuel : nat) (path : pystr)
    (target b : bool) (s s' : astate) :
  (forall p, dict_contains (memo s) (KStr p) = false) ->
  lstat path = None ->
  has_access (Some (uid, groups)) src lstat fuel path target s = (s', inr b) ->
  b = false /\ dict_getitem (memo s') (KPair path target) = inr false.
Proof.
  intros Hk Hl H. destruct fuel as [|f]; [discriminate|].
  cbn [has_access] in H. unfold st_bind at 1, a_in in H. rewrite Hk in H.
  unfold st_bind at 1 in H.
  match type of H with
  | (match ?X with _ => _ end) = _ => destruct X as [s1 [e|[|]]]
  end; [discriminate| |].
  - cbn [negb] in H. unfold st_bind at 1, a_lstat in H. rewrite Hl in H.
    apply st_bind_a_set_false in H as [H1 ->]. auto.
  - apply st_bind_a_set_false in H as [H1 ->]. auto.
Qed.

(** X13: [_has_access] records the answer it returns in its memo under
    the key (path, target). *)
Theorem has_access_records_answer (uid : N) (groups : list N) (src : pystr)
    (lstat : pystr -> option node) (fuel : nat) (path : pystr)
    (target b : bool) (s s' : astate) :
  (forall p, dict_contains (memo s) (KStr p) = false) ->
  has_access (Some (uid, groups)) src lstat fuel path target s = (s', inr b) ->
  dict_getitem (memo s') (KPair path target) = inr b.
Proof.
  intros Hk H. destruct fuel as [|f]; [discriminate|].
  cbn [has_access] in H. unfold st_bind at 1, a_in in H. rewrite Hk in H.
  unfold st_bind at 1 in H.
  match type of H with
  | (match ?X with _ => _ end) = _ => destruct X as [s1 [e|[|]]]
  end; [discriminate| |].
  - cbn [negb] in H. unfold st_bind at 1, a_lstat in H.
    destruct (lstat path) as [st|].
    + apply st_bind_a_get in H. exact H.
    + apply st_bind_a_set_false in H as [H1 _]. exact H1.
  - apply st_bind_a_set_false in H as [H1 _]. exact H1.
Qed.

Lemma has_access_requires_parent_witness :
  exists s2, has_access (Some (1000, [100])) (lit "/music") music_fs 4
               (dirname (lit "/music/a.flac")) false
               {| memo := []; lstat_log := [] |} = (s2, inr true).
Proof.
  destruct (has_access (Some (1000, [100])) (lit "/music") music_fs 5
              (lit "/music/a.flac") false {| memo := []; lstat_log := [] |})
    as [s' r] eqn:E.
  assert (r = inr true) as -> by (vm_compute in E; congruence).
  apply (has_access_requires_parent 1000 [100] (lit "/music") music_fs 4
           (lit "/music/a.flac") false {| memo := []; lstat_log := [] |} s').
  - intros p. reflexivity.
  - vm_compute. discriminate.
  - exact E.
Defined.

Lemma has_access_missing_path_witness :
  exists s', has_access (Some (1000, [100])) (lit "/music") music_fs 5
               (lit "/music/b.flac") false {| memo := []; lstat_log := [] |}
             = (s', inr false) /\
             dict_getitem (memo s') (KPair (lit "/music/b.flac") false)
             = inr false.
Proof.
  destruct (has_access (Some (1000, [100])) (lit "/music") music_fs 5
              (lit "/music/b.flac") false {| memo := []; lstat_log := [] |})
    as [s' r] eqn:E.
  assert (r = inr false) as -> by (vm_compute in E; congruence).
  exists s'. split; [reflexivity|].
  apply (has_access_missing_path 1000 [100] (lit "/music") music_fs 5
           (lit "/music/b.flac") false false {| memo := []; lstat_log := [] |} s').
  - intros p. reflexivity.
  - reflexivity.
  - exact E.
Defined.

Lemma has_access_records_answer_witness :
  exists s', has_access (Some (1000, [100])) (lit "/music") music_fs 5
               (lit "/music/a.flac") false {| memo := []; lstat_log := [] |}
             = (s', inr true) /\
             dict_getitem (memo s') (KPair (lit "/music/a.flac") false)
             = inr true.
Proof.
  destruct (has_access (Some (1000, [100])) (lit "/music") music_fs 5
              (lit "/music/a.flac") false {| memo := []; lstat_log := [] |})
    as [s' r] eqn:E.
  assert (r = inr true) as -> by (vm_compute in E; congruence).
  exists s'. split; [reflexivity|].
  apply (has_access_records_answer 1000 [100] (lit "/music") music_fs 5
           (lit "/music/a.flac") false true {| memo := []; lstat_log := [] |} s').
  - intros p. reflexivity.
  - exact E.
Defined.

Section Appends.

Variable Q : list event -> Prop.
Hypothesis Q_ok : Q [] /\ (forall a b, Q a -> Q b -> Q (a ++ b)).

Lemma appends_ret {A} (R : A -> Prop) (a : A) : R a -> appends Q R (st_ret a).
Proof.
  destruct Q_ok as [Q_nil _].
  intros Ha tr tr' r H. injection H as <- <-. exists [].
  rewrite app_nil_r. split; [reflexivity|]. split; [exact Q_nil|].
  intros a' E. injection E as <-. exact Ha.
Qed.

Lemma appends_raise {A} (R : A -> Prop) (e : exn) : appends Q R (st_raise e).
Proof.
  destruct Q_ok as [Q_nil _].
  intros tr tr' r H. injection H as <- <-. exists [].
  rewrite app_nil_r. split; [reflexivity|]. split; [exact Q_nil|].
  intros a E. discriminate E.
Qed.

Lemma appends_lift {A} (R : A -> Prop) (x : except A) :
  (forall a, x = inr a -> R a) -> appends Q R (m_lift x).
Proof.
  destruct Q_ok as [Q_nil _].
  intros Hx tr tr' r H. injection H as <- <-. exists [].
  rewrite app_nil_r. split; [reflexivity|]. split; [exact Q_nil|]. exact Hx.
Qed.

Lemma appends_emit (e : event) : Q [e] -> appends Q (fun _ => True) (emit e).
Proof.
  destruct Q_ok as [_ _].
  intros He tr tr' r H. injection H as <- <-. exists [e].
  split; [reflexivity|]. split; [exact He|]. auto.
Qed.

Lemma appends_bind {A B} (R : A -> Prop) (R' : B -> Prop) (m : M A)
    (k : A -> M B) :
  appends Q R m -> (forall a, R a -> appends Q R' (k a)) ->
  appends Q R' (st_bind m k).
Proof.
  destruct Q_ok as [_ Q_app].
  intros Hm Hk tr tr' r H. unfold st_bind in H.
  destruct (m tr) as [tr1 [e|a]] eqn:E.
  - injection H as <- <-. destruct (Hm _ _ _ E) as (blk & -> & HQ & _).
    exists blk. split; [reflexivity|]. split; [exact HQ|].
    intros b Eb. discriminate Eb.
  - destruct (Hm _ _ _ E) as (blk & -> & HQ & HR).
    destruct (Hk a (HR a eq_refl) _ _ _ H) as (blk2 & -> & HQ2 & HR2).
    exists (blk ++ blk2). split; [symmetry; apply app_assoc|].
    split; [apply Q_app; assumption|exact HR2].
Qed.

Lemma appends_weaken {A} (R R' : A -> Prop) (m : M A) :
  appends Q R m -> (forall a, R a -> R' a) -> appends Q R' m.
Proof.
  destruct Q_ok as [_ _].
  intros Hm HR tr tr' r H. destruct (Hm _ _ _ H) as (blk & ? & ? & HR1).
  exists blk. split; [assumption|]. split; [assumption|]. eauto.
Qed.

Lemma appends_iter {A} (f : A -> M unit) (l : list A) :
  (forall x, In x l -> appends Q (fun _ => True) (f x)) ->
  appends Q (fun _ => True) (m_iter f l).
Proof.
  induction l as [|x l IH]; intros Hf; simpl.
  - apply appends_ret. exact I.
  - apply (appends_bind (fun _ => True)); [apply Hf; left; reflexivity|].
    intros _ _. apply IH. intros y Hy. apply Hf. right. exact Hy.
Qed.

Lemma appends_assert_safe (n : pystr) :
  (forall b, Q [EvCheck n b]) -> appends Q (fun _ => True) (assert_safe n).
Proof.
  intros Hc. unfold assert_safe.
  apply (appends_bind (fun _ => True)); [apply appends_emit, Hc|].
  intros _ _. apply appends_lift. auto.
Qed.

End Appends.

Lemma set_remove_subseteq (x : pystr) (s s' : gset pystr) :
  set_remove x s = inr s' -> s' ⊆ s.
Proof.
  unfold set_remove. case_bool_decide; [|discriminate].
  intros E. injection E as <-. set_solver.
Qed.

Lemma join_cons_sep (c x : N) (w : pystr) (ws : list pystr) :
  join [c] ((x :: w) :: ws) = x :: join [c] (w :: ws).
Proof. destruct ws; reflexivity. Qed.

Lemma join_split_on (c : N) (s : pystr) : join [c] (split_on c s) = s.
Proof.
  induction s as [|x s IH]; [reflexivity|]. simpl.
  destruct (N.eqb x c) eqn:E.
  - apply N.eqb_eq in E. subst x.
    pose proof (split_on_nonempty c s) as Hne.
    destruct (split_on c s) as [|w ws]; [congruence|].
    change (join [c] ([] :: w :: ws)) with ([] ++ [c] ++ join [c] (w :: ws)).
    rewrite IH. reflexivity.
  - pose proof (split_on_nonempty c s) as Hne.
    destruct (split_on c s) as [|w ws]; [congruence|].
    rewrite join_cons_sep, IH. reflexivity.
Qed.

Lemma join_cons2 (sep w y : pystr) (ys : list pystr) :
  join sep (w :: y :: ys) = w ++ sep ++ join sep (y :: ys).
Proof. reflexivity. Qed.

Lemma join_snoc (c : N) (l : list pystr) (x : pystr) :
  l <> [] -> join [c] (l ++ [x]) = join [c] l ++ [c] ++ x.
Proof.
  induction l as [|w l IH]; intros Hl; [congruence|].
  destruct l as [|w2 l]; [reflexivity|].
  change ((w :: w2 :: l) ++ [x]) with (w :: ((w2 :: l) ++ [x])).
  destruct ((w2 :: l) ++ [x]) as [|y ys] eqn:E; [destruct l; discriminate|].
  rewrite !join_cons2.
  rewrite IH by discriminate. rewrite <- !app_assoc. reflexivity.
Qed.

Lemma join_removelast (c : N) (l : list pystr) :
  (2 <= length l)%nat ->
  join [c] (removelast l) ++ [c] ++ List.last l [] = join [c] l.
Proof.
  intros Hl. assert (l <> []) as Hne by (destruct l; simpl in Hl; [lia|discriminate]).
  rewrite (app_removelast_last [] Hne) at 3. rewrite join_snoc; [reflexivity|].
  intros E. pose proof (app_removelast_last [] Hne) as H2. rewrite E in H2.
  rewrite H2 in Hl. simpl in Hl. lia.
Qed.

Lemma dst_format_of_member (cfg : config) (dst : gset pystr) (n : pystr) :
  format cfg ∉ dst -> n ∈ dst_format_of cfg dst ->
  dot_format n (format cfg) ∈ dst.
Proof.
  intros Hf Hn. unfold dst_format_of in Hn.
  apply elem_of_map in Hn as [d [-> Hd]].
  apply elem_of_filter in Hd as [Hlast Hd].
  destruct (split_on c_dot d) as [|p0 ps] eqn:Es.
  { exfalso. revert Es. apply split_on_nonempty. }
  destruct ps as [|p1 ps].
  - exfalso. apply Hf. simpl in Hlast. rewrite <- Hlast.
    pose proof (join_split_on c_dot d) as Hj. rewrite Es in Hj.
    simpl in Hj. rewrite Hj. exact Hd.
  - unfold dot_format. rewrite <- Hlast.
    rewrite join_removelast by (simpl; lia).
    rewrite <- Es, join_split_on. exact Hd.
Qed.

Lemma Forall_ok (P : event -> Prop) :
  Forall P [] /\ (forall a b, Forall P a -> Forall P b -> Forall P (a ++ b)).
Proof. split; [constructor|]. intros a b Ha Hb. apply Forall_app; auto. Qed.

Lemma refresh_flac_appends (Q : list event -> Prop)
    (HQ : Q [] /\ (forall a b, Q a -> Q b -> Q (a ++ b)))
    (cfg : config) (w : world)
    (fmap : gmap pystr pystr) (names : list pystr) (dff df : gset pystr) :
  (forall n, In n names -> Q [EvUnlink (dot_format n (format cfg))]) ->
  appends Q (fun p => p.2 ⊆ df) (refresh_flac cfg w fmap names dff df).
Proof.
  revert dff df. induction names as [|name names IH]; intros dff df Hn.
  - apply (appends_ret _ HQ). simpl. reflexivity.
  - cbn [refresh_flac].
    apply (appends_bind _ HQ (fun _ => True));
      [apply (appends_lift _ HQ); auto|].
    intros phys _. destruct (Qle_bool _ _).
    + apply (appends_bind _ HQ (fun _ => True)).
      { apply (appends_emit _ HQ). apply Hn. left. reflexivity. }
      intros _ _. apply (appends_bind _ HQ (fun _ => True));
        [apply (appends_lift _ HQ); auto|].
      intros dff' _. apply (appends_bind _ HQ (fun df' => df' ⊆ df)).
      { apply (appends_lift _ HQ). intros a Ha.
        apply (set_remove_subseteq _ _ _ Ha). }
      intros df' Hdf'. eapply (appends_weaken _ HQ).
      * apply IH. intros n Hin. apply Hn. right. exact Hin.
      * intros p Hp. set_solver.
    + apply IH. intros n Hin. apply Hn. right. exact Hin.
Qed.

Lemma refresh_other_appends (Q : list event -> Prop)
    (HQ : Q [] /\ (forall a b, Q a -> Q b -> Q (a ++ b)))
    (w : world) (nmap : gmap pystr pystr) (names : list pystr)
    (df : gset pystr) :
  (forall n, In n names -> Q [EvUnlink n]) ->
  appends Q (fun df' => df' ⊆ df) (refresh_other w nmap names df).
Proof.
  revert df. induction names as [|name names IH]; intros df Hn.
  - apply (appends_ret _ HQ). reflexivity.
  - cbn [refresh_other].
    apply (appends_bind _ HQ (fun _ => True));
      [apply (appends_lift _ HQ); auto|].
    intros phys _. destruct (Qle_bool _ _).
    + apply (appends_bind _ HQ (fun _ => True)).
      { apply (appends_emit _ HQ). apply Hn. left. reflexivity. }
      intros _ _. apply (appends_bind _ HQ (fun df' => df' ⊆ df)).
      { apply (appends_lift _ HQ). intros a Ha.
        apply (set_remove_subseteq _ _ _ Ha). }
      intros df' Hdf'. eapply (appends_weaken _ HQ).
      * apply IH. intros n Hin. apply Hn. right. exact Hin.
      * intros p Hp. set_solver.
    + apply IH. intros n Hin. apply Hn. right. exact Hin.
Qed.

(** X14: When no destination file is named exactly the format, the
    reconciliation phase of [sync_paths] only appends to the trace,
    and each appended effect is in its inventory: unlinks of existing
    destination files, rmtree of destination-only directories, makedirs
    of source-only directories and, with fat, timestamp rounding of
    common directories; it never copies, transcodes or rewrites tags. *)
Theorem reconcile_effects_in_inventory (unidecode : pystr -> pystr)
    (cfg : config) (w : world) (tr tr' : list event)
    (r : except (src_sets * gset pystr * gset pystr)) :
  format cfg ∉ w_dst_files w ->
  reconcile unidecode cfg w tr = (tr', r) ->
  exists blk, tr' = tr ++ blk /\ Forall (reconcile_effect cfg w) blk.
Proof.
  intros Hf H.
  pose proof (Forall_ok (reconcile_effect cfg w)) as HQ.
  assert (appends (Forall (reconcile_effect cfg w)) (fun _ => True)
            (reconcile unidecode cfg w)) as Ha.
  { unfold reconcile.
    apply (appends_bind _ HQ (fun _ => True));
      [apply (appends_lift _ HQ); auto|].
    intros ss _.
    apply (appends_bind _ HQ (fun p => p.2 ⊆ w_dst_files w)).
    { apply (refresh_flac_appends _ HQ). intros n Hn.
      constructor; [|constructor]. cbn [reconcile_effect].
      apply list_elem_of_In, elem_of_elements, elem_of_intersection in Hn
        as [_ Hn].
      apply dst_format_of_member; assumption. }
    intros [dff df] Hdf. cbn [snd] in Hdf.
    apply (appends_bind _ HQ (fun df' => df' ⊆ w_dst_files w)).
    { eapply (appends_weaken _ HQ).
      - apply (refresh_other_appends _ HQ). intros n Hn.
        apply list_elem_of_In, elem_of_elements, elem_of_intersection in Hn
          as [_ Hn]. constructor; [|constructor]. apply Hdf, Hn.
      - intros df' Hdf'. set_solver. }
    intros df' Hdf'.
    apply (appends_bind _ HQ (fun _ => True)).
    { apply (appends_iter _ HQ). intros n Hn.
      apply list_elem_of_In, elem_of_elements, elem_of_difference in Hn
        as [Hn _].
      apply (appends_bind _ HQ (fun _ => True)).
      - apply (appends_assert_safe _ HQ). intros b. repeat constructor.
      - intros _ _. apply (appends_emit _ HQ). constructor; [|constructor].
        apply Hdf', Hn. }
    intros _ _.
    apply (appends_bind _ HQ (fun _ => True)).
    { apply (appends_iter _ HQ). intros n Hn.
      apply list_elem_of_In, elem_of_elements in Hn.
      apply (appends_bind _ HQ (fun _ => True)).
      - apply (appends_assert_safe _ HQ). intros b. repeat constructor.
      - intros _ _. apply (appends_emit _ HQ). constructor; [|constructor].
        exact Hn. }
    intros _ _.
    apply (appends_bind _ HQ (fun _ => True)).
    { apply (appends_iter _ HQ). intros n Hn.
      apply list_elem_of_In, elem_of_elements in Hn.
      apply (appends_bind _ HQ (fun _ => True)).
      - apply (appends_assert_safe _ HQ). intros b. repeat constructor.
      - intros _ _. apply (appends_emit _ HQ). constructor; [|constructor].
        exact Hn. }
    intros _ _.
    apply (appends_bind _ HQ (fun _ => True)).
    { destruct (c_fat cfg) eqn:Efat.
      - apply (appends_iter _ HQ). intros n Hn.
        apply list_elem_of_In, elem_of_elements in Hn.
        apply (appends_emit _ HQ). constructor; [|constructor].
        split; assumption.
      - apply (appends_ret _ HQ). exact I. }
    intros _ _. apply (appends_ret _ HQ). exact I. }
  destruct (Ha _ _ _ H) as (blk & -> & HB & _). eauto.
Qed.

Lemma reconcile_effects_in_inventory_witness :
  exists blk, fst (reconcile (fun x => x) cfg_ogg refresh_world []) = [] ++ blk
              /\ Forall (reconcile_effect cfg_ogg refresh_world) blk.
Proof.
  destruct (reconcile (fun x => x) cfg_ogg refresh_world []) as [tr' r] eqn:E.
  apply (reconcile_effects_in_inventory (fun x => x) cfg_ogg refresh_world
           [] tr' r).
  - apply (bool_decide_eq_false_1
             (format cfg_ogg ∈ w_dst_files refresh_world)).
    vm_compute. reflexivity.
  - exact E.
Defined.

Lemma checked_except_unlink_mono (ck ck' : list pystr) (tr : list event) :
  (forall x, x ∈ ck -> x ∈ ck') ->
  checked_except_unlink ck tr = true -> checked_except_unlink ck' tr = true.
Proof.
  revert ck ck'. induction tr as [|e tr IH]; intros ck ck' Hs H; [reflexivity|].
  destruct e as [n [|]|n|n|n|n|n|n f|n f];
    cbn [checked_except_unlink mutated_name] in *;
    try (apply andb_prop in H as [H1 H2]; apply andb_true_intro; split;
         [ first [ reflexivity
                 | unfold mem in *; apply bool_decide_eq_true in H1;
                   apply bool_decide_eq_true_2; auto ]
         | apply (IH ck); assumption ]).
  - apply (IH (n :: ck)); [|exact H]. intros x Hx.
    apply elem_of_cons in Hx as [->|Hx]; apply elem_of_cons; auto.
  - apply (IH ck); assumption.
Qed.

Lemma checked_except_unlink_app (ck : list pystr) (a b : list event) :
  checked_except_unlink ck a = true -> checked_except_unlink ck b = true ->
  checked_except_unlink ck (a ++ b) = true.
Proof.
  revert ck. induction a as [|e a IH]; intros ck Ha Hb; [exact Hb|].
  destruct e as [n [|]|n|n|n|n|n|n f|n f];
    cbn [checked_except_unlink mutated_name app] in *;
    try (apply andb_prop in Ha as [H1 H2]; apply andb_true_intro;
         split; [exact H1|apply IH; assumption]).
  - apply IH; [exact Ha|]. apply (checked_except_unlink_mono ck); [|exact Hb].
    intros x Hx. apply elem_of_cons. auto.
  - apply IH; assumption.
Qed.

Lemma checked_ok (ck : list pystr) :
  checked_except_unlink ck [] = true /\
  (forall a b, checked_except_unlink ck a = true ->
               checked_except_unlink ck b = true ->
               checked_except_unlink ck (a ++ b) = true).
Proof. split; [reflexivity|]. apply checked_except_unlink_app. Qed.

Lemma appends_checked_assert {A} (ck : list pystr) (n : pystr)
    (R : A -> Prop) (k : M A) :
  appends (fun blk => checked_except_unlink (n :: ck) blk = true) R k ->
  appends (fun blk => checked_except_unlink ck blk = true) R
    (st_bind (assert_safe n) (fun _ => k)).
Proof.
  intros Hk tr tr' r H. unfold st_bind, assert_safe, emit, m_lift in H.
  cbn [st_bind] in H. unfold st_bind in H.
  destruct (safe_filename n) eqn:Es; cbn [py_assert] in H.
  - destruct (Hk _ _ _ H) as (blk & -> & Hb & HR).
    exists (EvCheck n true :: blk). split; [rewrite <- app_assoc; reflexivity|].
    split; [exact Hb|exact HR].
  - injection H as <- <-. exists [EvCheck n false].
    split; [reflexivity|]. split; [reflexivity|]. intros a E; discriminate E.
Qed.

Lemma appends_checked_emit (ck : list pystr) (e : event) :
  match e with
  | EvUnlink _ | EvCheck _ _ => True
  | _ => match mutated_name e with Some n => n ∈ ck | None => True end
  end ->
  appends (fun blk => checked_except_unlink ck blk = true) (fun _ => True)
    (emit e).
Proof.
  intros He. apply (appends_emit _ (checked_ok ck)).
  destruct e as [n [|]|n|n|n|n|n|n f|n f]; cbn in *; try reflexivity;
    unfold mem; rewrite andb_true_r; apply bool_decide_eq_true_2; exact He.
Qed.

Lemma appends_checked_ret {A} (ck : list pystr) (R : A -> Prop) (a : A) :
  R a -> appends (fun blk => checked_except_unlink ck blk = true) R (st_ret a).
Proof. apply (appends_ret _ (checked_ok ck)). Qed.

Lemma copy_file_checked (cfg : config) (ck : list pystr) (s n : pystr) :
  appends (fun blk => checked_except_unlink ck blk = true) (fun _ => True)
    (copy_file cfg s n).
Proof.
  unfold copy_file. apply appends_checked_assert, appends_checked_assert.
  apply (appends_bind _ (checked_ok _) (fun _ => True)).
  { apply appends_checked_emit. apply elem_of_cons. left. reflexivity. }
  intros _ _. destruct (c_fat cfg).
  - apply appends_checked_emit. exact I.
  - apply appends_checked_ret. exact I.
Qed.

Lemma sync_flac_checked (cfg : config) (w : world) (ck : list pystr)
    (s n : pystr) :
  appends (fun blk => checked_except_unlink ck blk = true) (fun _ => True)
    (sync_flac cfg w s n).
Proof.
  unfold sync_flac. apply appends_checked_assert, appends_checked_assert.
  apply (appends_bind _ (checked_ok _) (fun _ => True)).
  { destruct (known_format cfg);
      [apply appends_checked_ret; exact I|apply (appends_raise _ (checked_ok _))]. }
  intros _ _. apply (appends_bind _ (checked_ok _) (fun _ => True)).
  { destruct (w_tags_differ w n).
    - apply appends_checked_emit. apply elem_of_cons. left. reflexivity.
    - apply appends_checked_ret. exact I. }
  intros _ _. destruct (c_fat cfg).
  - apply appends_checked_emit. exact I.
  - apply appends_checked_ret. exact I.
Qed.

Lemma copy_flac_checked (cfg : config) (w : world) (ck : list pystr)
    (s n : pystr) :
  appends (fun blk => checked_except_unlink ck blk = true) (fun _ => True)
    (copy_flac cfg w s n).
Proof.
  unfold copy_flac. apply appends_checked_assert, appends_checked_assert.
  apply (appends_bind _ (checked_ok _) (fun _ => True)).
  { destruct (known_format cfg).
    - apply appends_checked_emit. apply elem_of_cons. left. reflexivity.
    - apply (appends_raise _ (checked_ok _)). }
  intros _ _. apply sync_flac_checked.
Qed.

Lemma reconcile_checked (unidecode : pystr -> pystr) (cfg : config)
    (w : world) :
  appends (fun blk => checked_except_unlink [] blk = true) (fun _ => True)
    (reconcile unidecode cfg w).
Proof.
  pose proof (checked_ok []) as HQ.
  unfold reconcile.
  apply (appends_bind _ HQ (fun _ => True));
    [apply (appends_lift _ HQ); auto|].
  intros ss _.
  apply (appends_bind _ HQ (fun _ => True)).
  { eapply (appends_weaken _ HQ);
      [apply (refresh_flac_appends _ HQ); intros; reflexivity|auto]. }
  intros [dff df] _.
  apply (appends_bind _ HQ (fun _ => True)).
  { eapply (appends_weaken _ HQ);
      [apply (refresh_other_appends _ HQ); intros; reflexivity|auto]. }
  intros df' _.
  apply (appends_bind _ HQ (fun _ => True)).
  { apply (appends_iter _ HQ). intros n _.
    apply appends_checked_assert, appends_checked_emit. exact I. }
  intros _ _. apply (appends_bind _ HQ (fun _ => True)).
  { apply (appends_iter _ HQ). intros n _.
    apply appends_checked_assert, appends_checked_emit.
    apply elem_of_cons. left. reflexivity. }
  intros _ _. apply (appends_bind _ HQ (fun _ => True)).
  { apply (appends_iter _ HQ). intros n _.
    apply appends_checked_assert, appends_checked_emit.
    apply elem_of_cons. left. reflexivity. }
  intros _ _. apply (appends_bind _ HQ (fun _ => True)).
  { destruct (c_fat cfg).
    - apply (appends_iter _ HQ). intros n _. apply appends_checked_emit. exact I.
    - apply appends_checked_ret. exact I. }
  intros _ _. apply appends_checked_ret. exact I.
Qed.

(** X15: In the trace of [sync_paths] (the pool's jobs run one after
    another), every rmtree, makedirs, copy, transcode and tag rewrite of
    a destination name comes after a passed [safe_filename] check of that
    name; unlinks are the only mutations exempt, because the refresh
    loops unlink without a check. *)
Theorem sync_paths_checks_before_mutations (unidecode : pystr -> pystr)
    (cfg : config) (w : world) :
  checked_except_unlink [] (fst (sync_paths unidecode cfg w [])) = true.
Proof.
  pose proof (checked_ok []) as HQ.
  assert (appends (fun blk => checked_except_unlink [] blk = true)
            (fun _ => True) (sync_paths unidecode cfg w)) as Ha.
  { unfold sync_paths.
    apply (appends_bind _ HQ (fun _ => True)); [apply reconcile_checked|].
    intros [[ss dff] df] _.
    apply (appends_bind _ HQ (fun _ => True)).
    { apply (appends_iter _ HQ). intros n _.
      apply (appends_bind _ HQ (fun _ => True));
        [apply (appends_lift _ HQ); auto|].
      intros s _. apply copy_file_checked. }
    intros _ _. apply (appends_bind _ HQ (fun _ => True)).
    { apply (appends_iter _ HQ). intros n _.
      apply (appends_bind _ HQ (fun _ => True));
        [apply (appends_lift _ HQ); auto|].
      intros s _. apply copy_flac_checked. }
    intros _ _. apply (appends_iter _ HQ). intros n _.
    apply (appends_bind _ HQ (fun _ => True));
      [apply (appends_lift _ HQ); auto|].
    intros s _. apply sync_flac_checked. }
  destruct (sync_paths unidecode cfg w []) as [tr' r] eqn:E.
  destruct (Ha _ _ _ E) as (blk & -> & Hb & _). exact Hb.
Qed.
